(** * google-pronouncer: the command-line interface (src/google_pronouncer/cli.py)

    A shallow embedding of [cli.py].  The functions of the module
    ([parse_args], [setup_logging], [process_words], [show_cache_info],
    [clear_cache], [main]) are translated one by one.  Everything the module
    imports is kept abstract:

    - the downloader object of [downloader.py] is an interface
      ([DownloaderAPI]) over an abstract [World] (file system, network, the
      heap of the downloader objects); every method may return or raise;
    - the Python library functions [int], [repr] and [json.dumps] are the
      fields of [PyLib];
    - effects that the command line can observe (log records, lines printed,
      calls made to the downloader together with what they answered) are
      collected, in order, in a trace of [event]s.

    The cache index, which belongs to [downloader.py], is modelled from the
    specification in the module [CacheIndex]. *)

From Stdlib Require Import ZArith String List Bool Lia.
From stdpp Require Import base strings list gmap pretty.

Open Scope string_scope.

(** ** Python values *)

(** [pathlib.Path]: a wrapper around the path string; every instance is truthy. *)
Inductive Path := PyPath (s : string).

(** The exceptions the module can meet.  [DownloadError] and [CacheError] are
    imported from [downloader.py]; [OtherException] stands for every other
    subclass of [Exception] ([ValueError], [KeyError], [OSError], ...);
    [SystemExit] and [KeyboardInterrupt] derive from [BaseException] only and
    are not matched by [except Exception]. *)
Inductive exn :=
| DownloadError (msg : string)
| CacheError (msg : string)
| OtherException (cls msg : string)
| SystemExit (code : Z)
| KeyboardInterrupt.

(** [isinstance(e, Exception)] *)
Definition is_Exception (e : exn) : bool :=
  match e with
  | DownloadError _ | CacheError _ | OtherException _ _ => true
  | SystemExit _ | KeyboardInterrupt => false
  end.

(** [isinstance(e, (DownloadError, CacheError))] *)
Definition is_Download_or_Cache_Error (e : exn) : bool :=
  match e with
  | DownloadError _ | CacheError _ => true
  | _ => false
  end.

(** [str(e)], as interpolated by [f"...{e}"] *)
Definition exn_str (e : exn) : string :=
  match e with
  | DownloadError m | CacheError m | OtherException _ m => m
  | SystemExit code => pretty code
  | KeyboardInterrupt => ""
  end.

(** The result of evaluating a Python expression: a value or a raised exception. *)
Inductive res (A : Type) :=
| Ret (a : A)
| Raise (e : exn).
Arguments Ret {A} a.
Arguments Raise {A} e.

(** JSON-serialisable values, the argument of [json.dumps]. *)
#[local] Unset Elimination Schemes.
Inductive Json :=
| JNull
| JBool (b : bool)
| JInt (z : Z)
| JStr (s : string)
| JList (l : list Json)
| JDict (d : list (string * Json)).
#[local] Set Elimination Schemes.

(** A [dict] with string keys, in insertion order. *)
Definition dict := list (string * Json).

(** [d[k]]: the value of the first binding of [k], [KeyError] otherwise. *)
Fixpoint dict_get (d : dict) (k : string) : option Json :=
  match d with
  | [] => None
  | (k', v) :: d' => if String.eqb k' k then Some v else dict_get d' k
  end.

(** The Python library functions the module calls. *)
Class PyLib := {
  (** [int(s)] on a string: [None] when it raises [ValueError] *)
  py_int : string -> option Z;
  (** [repr(s)] of a string, the text of a [KeyError] *)
  py_repr : string -> string;
  (** [json.dumps(v, indent=n)] *)
  json_dumps : Json -> nat -> string
}.

(** ** The names imported from [downloader.py] *)

(** Modelled from the spec: [AccentType] is declared in [downloader.py], which
    is not part of the sources at hand.  The spec's data model makes the accent
    a two-value enumeration GB / US; its values are the lower-case strings the
    command line offers for a single accent. *)
Inductive AccentType := GB | US.

(** [AccentType(s)]: look a member up by value, [ValueError] when none has it. *)
Definition AccentType_of (s : string) : res AccentType :=
  if String.eqb s "gb" then Ret GB
  else if String.eqb s "us" then Ret US
  else Raise (OtherException "ValueError" ("'" +:+ s +:+ "' is not a valid AccentType")).

(** Modelled from the spec: [DownloadConfig] is declared in [downloader.py].
    The spec's data model gives it four fields (output directory, timeout in
    seconds, use of the cache, forced download); they are the four keyword
    arguments of its single construction site, lines 157-162 of [main]
    ([cfg_output_dir] and [cfg_timeout] are [output_dir] and [timeout]). *)
Record DownloadConfig := mkDownloadConfig {
  cfg_output_dir : Path;
  cfg_timeout : Z;
  use_cache : bool;
  force_download : bool
}.

(** The downloader object.  [World] is everything its methods may read or
    change; each method returns its result (or the exception it raised)
    together with the new world. *)
Class DownloaderAPI (World : Type) := {
  Downloader : Type;
  (** [GooglePronunciationDownloader(config)] *)
  dl_init : DownloadConfig -> World -> res Downloader * World;
  (** [downloader.download_all_accents(word)] *)
  dl_download_all_accents : Downloader -> string -> World -> res (list Path) * World;
  (** [downloader.download_pronunciation(word, accent)]: a path or [None] *)
  dl_download_pronunciation :
    Downloader -> string -> AccentType -> World -> res (option Path) * World;
  (** [downloader.get_cache_info(word)] / [downloader.get_cache_info()] *)
  dl_get_cache_info : Downloader -> option string -> World -> res dict * World;
  (** [downloader.clear_cache(word)] / [downloader.clear_cache()] *)
  dl_clear_cache : Downloader -> option string -> World -> res unit * World
}.

(** ** Observable events *)

Inductive LogLevel := DEBUG | INFO.

Inductive event :=
| EvBasicConfig (level : LogLevel)                      (* logging.basicConfig *)
| EvLogError (msg : string)                             (* logging.error *)
| EvPrint (line : string)                               (* print *)
| EvAccentType (s : string) (r : res AccentType)        (* AccentType(s) *)
| EvInit (config : DownloadConfig) (r : res unit)       (* the constructor *)
| EvDownloadAll (word : string) (r : res (list Path))
| EvDownloadOne (word : string) (a : AccentType) (r : res (option Path))
| EvGetCacheInfo (word : option string) (r : res dict)
| EvClearCache (word : option string) (r : res unit).

(** ** The monad of the embedding: state, exceptions and an output trace *)

Section Monad.
Context {World : Type}.

Record run (A : Type) := Run {
  result : res A;
  final : World;
  trace : list event
}.
Global Arguments Run {A} result final trace.
Global Arguments result {A} r.
Global Arguments final {A} r.
Global Arguments trace {A} r.

Definition M (A : Type) : Type := World -> run A.

Definition ret {A} (a : A) : M A := fun w => Run (Ret a) w [].

Definition raise {A} (e : exn) : M A := fun w => Run (Raise e) w [].

Definition bind {A B} (m : M A) (k : A -> M B) : M B := fun w =>
  let r := m w in
  match result r with
  | Ret a => let r' := k a (final r) in
             Run (result r') (final r') (trace r ++ trace r')
  | Raise e => Run (Raise e) (final r) (trace r)
  end.

(** [emit ev]: an effect that only shows in the trace. *)
Definition emit (ev : event) : M unit := fun w => Run (Ret tt) w [ev].

(** [try: body  except <classes> as e: handler e].  [handler e] is [None]
    when no [except] clause matches [e], which then propagates.  The effects
    of [body] up to the [raise] are kept. *)
Definition try_except {A} (body : M A) (handler : exn -> option (M A)) : M A := fun w =>
  let r := body w in
  match result r with
  | Ret a => r
  | Raise e =>
      match handler e with
      | Some h => let r' := h (final r) in
                  Run (result r') (final r') (trace r ++ trace r')
      | None => r
      end
  end.

(** A call into the world that leaves one event behind. *)
Definition call {A} (f : World -> res A * World) (ev : res A -> event) : M A := fun w =>
  let '(r, w') := f w in Run r w' [ev r].
End Monad.
Global Arguments run : clear implicits.
Global Arguments M : clear implicits.

Notation "x <- m ;; k" := (bind m (fun x => k))
  (at level 100, m at next level, right associativity).
Notation "m ;;; k" := (bind m (fun _ => k))
  (at level 100, right associativity).

(** ** [parse_args] *)

(** The command line, as [argparse] resolves [sys.argv[1:]] against the
    options that [parse_args] declares: first the occurrences of the options
    of the top-level parser, then (optionally) the name of a sub-command and
    the arguments handed to its parser.  An occurrence stands for any spelling
    [argparse] accepts for it ([-o DIR], [--output-dir DIR],
    [--output-dir=DIR], an unambiguous prefix of the long option, ...).  So
    [--no-cache download hello -a us] is read as
    [mkCmdline [OptNoCache] (Some ("download", [ArgWord "hello"; ArgAccent "us"]))]. *)
Inductive global_opt :=
| OptHelp                          (* -h, --help (added by ArgumentParser) *)
| OptOutputDir (value : string)    (* -o, --output-dir *)
| OptTimeout (value : string)      (* -t, --timeout *)
| OptVerbose                       (* -v, --verbose *)
| OptNoCache                       (* --no-cache *)
| OptForceDownload                 (* --force-download *)
| OptUnknown (token : string)      (* an option string no action matches *)
| OptInvalid.                      (* an occurrence argparse rejects on sight:
                                      missing value, ambiguous prefix *)

#[global] Instance global_opt_eq_dec : EqDecision global_opt.
Proof. solve_decision. Defined.

Inductive sub_arg :=
| ArgHelp                          (* -h, --help of the sub-parser *)
| ArgWord (word : string)          (* a positional *)
| ArgAccent (value : string)       (* -a, --accent *)
| ArgUnknown (token : string)       (* an option the sub-parser does not declare;
                                      the top-level options are among them *)
| ArgInvalid.                      (* an occurrence argparse rejects on sight *)

Record cmdline := mkCmdline {
  globals : list global_opt;
  subcommand : option (string * list sub_arg)
}.

(** The [argparse.Namespace] that [parse_args] returns.  [command] is [None]
    when no sub-command is given; the attributes [words] and [accent] exist
    only when the parser of a sub-command that declares them has run.
    [force_download_flag] is [args.force_download] (the plain name is the
    field of the configuration). *)
Record Namespace := mkNamespace {
  command : option string;
  words : option (list string);
  accent : option string;
  output_dir : Path;
  timeout : Z;
  verbose : bool;
  no_cache : bool;
  force_download_flag : bool
}.

(** The defaults of lines 60-86: [Path("pronunciations")], [10], and [False]
    for the three [store_true] flags; [dest='command'] defaults to [None]. *)
Definition default_Namespace : Namespace :=
  {| command := None; words := None; accent := None;
     output_dir := PyPath "pronunciations"; timeout := 10;
     verbose := false; no_cache := false; force_download_flag := false |}.

(** [parser.error(...)]: usage on stderr, then [SystemExit(2)]. *)
Definition parser_error {A} : res A := Raise (SystemExit 2).

Section Parse.
Context {lib : PyLib}.

(** One occurrence of a top-level option.  The boolean collects whether an
    unrecognised argument has been seen ([parse_args] reports them at the end). *)
Definition global_action (st : Namespace * bool) (o : global_opt) : res (Namespace * bool) :=
  let '(ns, extras) := st in
  match o with
  | OptHelp => Raise (SystemExit 0)
  | OptOutputDir v =>
      Ret ({| command := command ns; words := words ns; accent := accent ns;
              output_dir := PyPath v; timeout := timeout ns;
              verbose := verbose ns; no_cache := no_cache ns;
              force_download_flag := force_download_flag ns |}, extras)
  | OptTimeout v =>
      match py_int v with
      | Some n =>
          Ret ({| command := command ns; words := words ns; accent := accent ns;
                  output_dir := output_dir ns; timeout := n;
                  verbose := verbose ns; no_cache := no_cache ns;
                  force_download_flag := force_download_flag ns |}, extras)
      | None => parser_error
      end
  | OptVerbose =>
      Ret ({| command := command ns; words := words ns; accent := accent ns;
              output_dir := output_dir ns; timeout := timeout ns;
              verbose := true; no_cache := no_cache ns;
              force_download_flag := force_download_flag ns |}, extras)
  | OptNoCache =>
      Ret ({| command := command ns; words := words ns; accent := accent ns;
              output_dir := output_dir ns; timeout := timeout ns;
              verbose := verbose ns; no_cache := true;
              force_download_flag := force_download_flag ns |}, extras)
  | OptForceDownload =>
      Ret ({| command := command ns; words := words ns; accent := accent ns;
              output_dir := output_dir ns; timeout := timeout ns;
              verbose := verbose ns; no_cache := no_cache ns;
              force_download_flag := true |}, extras)
  | OptUnknown _ => Ret (ns, true)
  | OptInvalid => parser_error
  end.

Fixpoint global_actions (st : Namespace * bool) (os : list global_opt) : res (Namespace * bool) :=
  match os with
  | [] => Ret st
  | o :: os' =>
      match global_action st o with
      | Ret st' => global_actions st' os'
      | Raise e => Raise e
      end
  end.

(** The positional [words] of a sub-parser takes one run of consecutive
    positionals: not yet met, being read, or closed by an option. *)
Inductive words_state :=
| WNone
| WOpen (ws : list string)
| WClosed (ws : list string).

Definition close_words (w : words_state) : words_state :=
  match w with
  | WOpen ws => WClosed ws
  | _ => w
  end.

Record sub_state := mkSubState {
  sub_words : words_state;
  sub_accent : string;
  sub_extras : bool
}.

(** [choices=["gb", "us", "all"]] *)
Definition accent_choices : list string := ["gb"; "us"; "all"].

(** One argument of a sub-command.  [has_accent] tells the [download] parser,
    the only one that declares [-a/--accent], from the other two. *)
Definition sub_action (has_accent : bool) (st : sub_state) (a : sub_arg) : res sub_state :=
  match a with
  | ArgHelp => Raise (SystemExit 0)
  | ArgWord w =>
      match sub_words st with
      | WNone => Ret (mkSubState (WOpen [w]) (sub_accent st) (sub_extras st))
      | WOpen ws => Ret (mkSubState (WOpen (ws ++ [w])) (sub_accent st) (sub_extras st))
      | WClosed ws => Ret (mkSubState (WClosed ws) (sub_accent st) true)
      end
  | ArgAccent v =>
      if has_accent then
        if bool_decide (v ∈ accent_choices)
        then Ret (mkSubState (close_words (sub_words st)) v (sub_extras st))
        else parser_error
      else Ret (mkSubState (close_words (sub_words st)) (sub_accent st) true)
  | ArgUnknown _ => Ret (mkSubState (close_words (sub_words st)) (sub_accent st) true)
  | ArgInvalid => parser_error
  end.

Fixpoint sub_actions (has_accent : bool) (st : sub_state) (args : list sub_arg) : res sub_state :=
  match args with
  | [] => Ret st
  | a :: args' =>
      match sub_action has_accent st a with
      | Ret st' => sub_actions has_accent st' args'
      | Raise e => Raise e
      end
  end.

Definition words_read (w : words_state) : option (list string) :=
  match w with
  | WNone => None
  | WOpen ws | WClosed ws => Some ws
  end.

(** The parser of one sub-command: [download] (lines 30-41: [words] with
    [nargs="+"], [--accent] with default ["all"]), [cache-info] and
    [clear-cache] (lines 44-57: [words] with [nargs="*"]).  Any other name is
    not among the choices of the sub-parsers action. *)
Definition parse_subcommand (ns : Namespace) (extras : bool)
    (name : string) (args : list sub_arg) : res (Namespace * bool) :=
  if String.eqb name "download" then
    match sub_actions true (mkSubState WNone "all" false) args with
    | Raise e => Raise e
    | Ret st =>
        match words_read (sub_words st) with
        | None => parser_error            (* nargs="+": at least one word *)
        | Some ws =>
            Ret ({| command := Some name; words := Some ws;
                    accent := Some (sub_accent st);
                    output_dir := output_dir ns; timeout := timeout ns;
                    verbose := verbose ns; no_cache := no_cache ns;
                    force_download_flag := force_download_flag ns |},
                 extras || sub_extras st)
        end
    end
  else if String.eqb name "cache-info" || String.eqb name "clear-cache" then
    match sub_actions false (mkSubState WNone "all" false) args with
    | Raise e => Raise e
    | Ret st =>
        Ret ({| command := Some name;
                words := Some (default [] (words_read (sub_words st)));
                accent := None;
                output_dir := output_dir ns; timeout := timeout ns;
                verbose := verbose ns; no_cache := no_cache ns;
                force_download_flag := force_download_flag ns |},
             extras || sub_extras st)
    end
  else parser_error.

(** [parse_args()] (lines 20-88), on the command line of the process. *)
Definition parse_args (argv : cmdline) : res Namespace :=
  match global_actions (default_Namespace, false) (globals argv) with
  | Raise e => Raise e
  | Ret (ns, extras) =>
      let r := match subcommand argv with
               | None => Ret (ns, extras)
               | Some (name, args) => parse_subcommand ns extras name args
               end in
      match r with
      | Raise e => Raise e
      | Ret (ns', extras') =>
          if extras' then parser_error   (* "unrecognized arguments" *)
          else Ret ns'
      end
  end.

End Parse.

(** ** The functions of [cli.py] *)

(** The newline of ["\nCache info ..."]. *)
Definition nl : string := String (Ascii.ascii_of_nat 10) EmptyString.

Section CLI.
Context {World : Type} {api : DownloaderAPI World} {lib : PyLib}.

Definition res_unit {A} (r : res A) : res unit :=
  match r with
  | Ret _ => Ret tt
  | Raise e => Raise e
  end.

(** The calls that leave [cli.py]. *)
Definition logging_error (msg : string) : M World unit := emit (EvLogError msg).

Definition print (line : string) : M World unit := emit (EvPrint line).

Definition AccentType_call (s : string) : M World AccentType := fun w =>
  Run (AccentType_of s) w [EvAccentType s (AccentType_of s)].

Definition GooglePronunciationDownloader (config : DownloadConfig) : M World Downloader :=
  call (dl_init config) (fun r => EvInit config (res_unit r)).

Definition download_all_accents (d : Downloader) (word : string) : M World (list Path) :=
  call (dl_download_all_accents d word) (EvDownloadAll word).

Definition download_pronunciation (d : Downloader) (word : string) (a : AccentType)
    : M World (option Path) :=
  call (dl_download_pronunciation d word a) (EvDownloadOne word a).

Definition get_cache_info (d : Downloader) (word : option string) : M World dict :=
  call (dl_get_cache_info d word) (EvGetCacheInfo word).

Definition downloader_clear_cache (d : Downloader) (word : option string) : M World unit :=
  call (dl_clear_cache d word) (EvClearCache word).

(** [for x in xs: body], threading the local variables [s] the body assigns. *)
Fixpoint for_in {A S} (xs : list A) (body : S -> A -> M World S) (s : S) : M World S :=
  match xs with
  | [] => ret s
  | x :: xs' => s' <- body s x ;; for_in xs' body s'
  end.

(** [setup_logging] (lines 12-18) *)
Definition setup_logging (verbose : bool) : M World unit :=
  let level := if verbose then DEBUG else INFO in
  emit (EvBasicConfig level).

(** Lines 97-101: the value of [paths]. *)
Definition fetch_paths (d : Downloader) (accent : string) (word : string) : M World (list Path) :=
  if String.eqb accent "all" then
    download_all_accents d word
  else
    a <- AccentType_call accent ;;
    path <- download_pronunciation d word a ;;
    ret (match path with Some p => [p] | None => [] end).

(** Lines 107-112: the two [except] clauses of the loop body. *)
Definition word_handler (word : string) (e : exn) : option (M World bool) :=
  if is_Download_or_Cache_Error e then
    Some (logging_error ("Error processing '" +:+ word +:+ "': " +:+ exn_str e) ;;;
          ret false)
  else if is_Exception e then
    Some (logging_error ("Unexpected error processing '" +:+ word +:+ "': " +:+ exn_str e) ;;;
          ret false)
  else None.

(** Lines 96-112: one iteration of the loop, from the value of [success]
    before it to the value after it. *)
Definition process_word (d : Downloader) (accent : string) (success : bool) (word : string)
    : M World bool :=
  try_except
    (paths <- fetch_paths d accent word ;;
     match paths with
     | [] =>
         logging_error ("No pronunciations downloaded for '" +:+ word +:+ "'") ;;;
         ret false
     | _ :: _ => ret success
     end)
    (word_handler word).

(** [process_words] (lines 90-114) *)
Definition process_words (ws : list string) (config : DownloadConfig) (accent : string)
    : M World Z :=
  downloader <- GooglePronunciationDownloader config ;;
  success <- for_in ws (process_word downloader accent) true ;;
  ret (if success then 0 else 1)%Z.

(** [info[word]] *)
Definition subscript (info : dict) (word : string) : M World Json :=
  match dict_get info word with
  | Some v => ret v
  | None => raise (OtherException "KeyError" (py_repr word))
  end.

(** Lines 120-126: the body of the loop over the words. *)
Definition show_word (d : Downloader) (_ : unit) (word : string) : M World unit :=
  info <- get_cache_info d (Some word) ;;
  match info with
  | _ :: _ =>
      print (nl +:+ "Cache info for '" +:+ word +:+ "':") ;;;
      v <- subscript info word ;;
      print (json_dumps v 2)
  | [] => print ("No cache info found for '" +:+ word +:+ "'")
  end.

(** Lines 128-133: no words. *)
Definition show_all (d : Downloader) : M World unit :=
  info <- get_cache_info d None ;;
  match info with
  | _ :: _ =>
      print (nl +:+ "Cache information:") ;;;
      print (json_dumps (JDict info) 2)
  | [] => print "No cached files found"
  end.

(** Lines 135-137 *)
Definition cache_info_handler (e : exn) : option (M World Z) :=
  if is_Exception e then
    Some (logging_error ("Error getting cache info: " +:+ exn_str e) ;;; ret 1%Z)
  else None.

(** [show_cache_info] (lines 116-137) *)
Definition show_cache_info (d : Downloader) (ws : list string) : M World Z :=
  try_except
    (match ws with
     | _ :: _ => for_in ws (show_word d) tt
     | [] => show_all d
     end ;;;
     ret 0%Z)
    cache_info_handler.

(** Lines 148-150 *)
Definition clear_cache_handler (e : exn) : option (M World Z) :=
  if is_Exception e then
    Some (logging_error ("Error clearing cache: " +:+ exn_str e) ;;; ret 1%Z)
  else None.

(** [clear_cache] (lines 139-150) *)
Definition clear_cache (d : Downloader) (ws : list string) : M World Z :=
  try_except
    (match ws with
     | _ :: _ => for_in ws (fun _ word => downloader_clear_cache d (Some word)) tt
     | [] => downloader_clear_cache d None
     end ;;;
     ret 0%Z)
    clear_cache_handler.

(** Attribute access on the namespace: [AttributeError] when it is missing. *)
Definition getattr {A} (name : string) (field : option A) : M World A :=
  match field with
  | Some v => ret v
  | None =>
      raise (OtherException "AttributeError"
               ("'Namespace' object has no attribute '" +:+ name +:+ "'"))
  end.

(** Lines 157-162 *)
Definition make_config (args : Namespace) : DownloadConfig :=
  {| cfg_output_dir := output_dir args;
     cfg_timeout := timeout args;
     use_cache := negb (no_cache args);
     force_download := force_download_flag args |}.

(** Lines 167-175: the dispatch on [args.command]. *)
Definition dispatch (args : Namespace) (config : DownloadConfig) (downloader : Downloader)
    : M World Z :=
  if bool_decide (command args = Some "download") then
    ws <- getattr "words" (words args) ;;
    a <- getattr "accent" (accent args) ;;
    process_words ws config a
  else if bool_decide (command args = Some "cache-info") then
    ws <- getattr "words" (words args) ;;
    show_cache_info downloader ws
  else if bool_decide (command args = Some "clear-cache") then
    ws <- getattr "words" (words args) ;;
    clear_cache downloader ws
  else
    logging_error "No command specified. Use --help for usage information." ;;;
    ret 1%Z.

(** Lines 176-178 *)
Definition main_handler (e : exn) : option (M World Z) :=
  if is_Exception e then
    Some (logging_error ("Fatal error: " +:+ exn_str e) ;;; ret 1%Z)
  else None.

(** [main] (lines 152-178).  [parse_args], [setup_logging] and the two
    constructors of lines 157-164 run before the [try]. *)
Definition main (argv : cmdline) : M World Z :=
  args <- (fun w => Run (parse_args argv) w []) ;;
  setup_logging (verbose args) ;;;
  let config := make_config args in
  downloader <- GooglePronunciationDownloader config ;;
  try_except (dispatch args config downloader) main_handler.

(** How the interpreter ends: an exit status, or death by the interrupt. *)
Inductive exit_status :=
| Exited (code : Z)
| Interrupted.

(** Lines 180-181, [sys.exit(main())]: the value [main] returns is the exit
    status; a [SystemExit] that leaves [main] (raised by [argparse]) carries
    its own; any other exception that nothing caught ends the interpreter
    with a traceback and status 1. *)
Definition exit_status_of (r : res Z) : exit_status :=
  match r with
  | Ret code => Exited code
  | Raise (SystemExit code) => Exited code
  | Raise KeyboardInterrupt => Interrupted
  | Raise _ => Exited 1
  end.

Definition script (argv : cmdline) (w : World) : exit_status * World * list event :=
  let r := main argv w in
  (exit_status_of (result r), final r, trace r).

End CLI.


(** ** Reading a trace *)

(** What an event tells about a requested word: the word, and whether the
    download made for it produced at least one file. *)
Definition word_outcome (ev : event) : option (string * bool) :=
  match ev with
  | EvDownloadAll word r =>
      Some (word, match r with Ret (_ :: _) => true | _ => false end)
  | EvDownloadOne word _ r =>
      Some (word, match r with Ret (Some _) => true | _ => false end)
  | _ => None
  end.

Definition word_outcomes (tr : list event) : list (string * bool) :=
  omap word_outcome tr.

(** Every requested word, in the order of the command line, was downloaded
    and produced at least one file. *)
Definition every_word_produced (ws : list string) (tr : list event) : Prop :=
  word_outcomes tr = map (fun word => (word, true)) ws.

(** The exception that a call recorded in the trace raised, if it did. *)
Definition raised (ev : event) : option exn :=
  match ev with
  | EvAccentType _ (Raise e) | EvInit _ (Raise e) | EvDownloadAll _ (Raise e)
  | EvDownloadOne _ _ (Raise e) | EvGetCacheInfo _ (Raise e)
  | EvClearCache _ (Raise e) => Some e
  | _ => None
  end.

(** Whatever was raised during the run was an error (an instance of
    [Exception]), not [SystemExit] or [KeyboardInterrupt]. *)
Definition only_errors (tr : list event) : bool :=
  forallb (fun ev => match raised ev with
                     | Some e => is_Exception e
                     | None => true
                     end) tr.

(** The options that set the output directory and the timeout. *)
Definition is_OptOutputDir (o : global_opt) : bool :=
  match o with OptOutputDir _ => true | _ => false end.

Definition is_OptTimeout (o : global_opt) : bool :=
  match o with OptTimeout _ => true | _ => false end.

(** A run of positionals that has been read is never empty. *)
Definition words_wf (w : words_state) : Prop :=
  match w with
  | WNone => True
  | WOpen ws | WClosed ws => ws <> []
  end.

(** The events other than the constructions and the accent conversions. *)
Definition plain_event (ev : event) : Prop :=
  (forall c r, ev <> EvInit c r) /\ (forall s r, ev <> EvAccentType s r).

(** The accents [process_words] is called with by [main]. *)
Definition valid_accent (a : string) : Prop :=
  a = "all" \/ exists acc, AccentType_of a = Ret acc.

(** The log record of a word that failed: lines 104, 108 and 111. *)
Definition failure_message (word : string) (r : res (list Path)) : string :=
  match r with
  | Ret _ => "No pronunciations downloaded for '" +:+ word +:+ "'"
  | Raise e =>
      if is_Download_or_Cache_Error e
      then "Error processing '" +:+ word +:+ "': " +:+ exn_str e
      else "Unexpected error processing '" +:+ word +:+ "': " +:+ exn_str e
  end.

(** A word fails when its download returns no path or raises an error. *)
Definition word_failed (r : res (list Path)) : bool :=
  match r with
  | Ret [] => true
  | Ret (_ :: _) => false
  | Raise e => is_Exception e
  end.

Section Observations.
Context {World : Type}.

(** Every event that [m] leaves in the trace satisfies [P]. *)
Definition emits (P : event -> Prop) {A} (m : M World A) : Prop :=
  forall w, Forall P (trace (m w)).

(** Lines 135-137 applied to the outcome of the body of the [try]. *)
Definition cache_info_result (r : run World unit) : run World Z :=
  match result r with
  | Ret _ => Run (Ret 0%Z) (final r) (trace r)
  | Raise e =>
      if is_Exception e then
        Run (Ret 1%Z) (final r)
          (trace r ++ [EvLogError ("Error getting cache info: " +:+ exn_str e)])
      else Run (Raise e) (final r) (trace r)
  end.

End Observations.

(** ** A test double

    A small deterministic downloader and library, used to run the functions
    above on concrete command lines.  The remote service knows some
    (word, accent) pairs; a fetch for a word listed in [mock_timeouts] times
    out; the constructor fails once [mock_inits_left] is used up; the
    metadata records of the words in [mock_unreadable] cannot be read. *)

Record MockWorld := mkMock {
  mock_inits_left : nat;
  mock_remote : list (string * AccentType);
  mock_timeouts : list string;
  mock_cache : dict;
  mock_unreadable : list string
}.

#[global] Instance AccentType_eq_dec : EqDecision AccentType.
Proof. solve_decision. Defined.

Definition accent_value (a : AccentType) : string :=
  match a with GB => "gb" | US => "us" end.

Definition mock_path (cfg : DownloadConfig) (word : string) (a : AccentType) : Path :=
  match cfg_output_dir cfg with
  | PyPath dir => PyPath (dir +:+ "/" +:+ word +:+ "_" +:+ accent_value a +:+ ".mp3")
  end.

Definition mock_init (cfg : DownloadConfig) (w : MockWorld) : res DownloadConfig * MockWorld :=
  match mock_inits_left w with
  | O => (Raise (OtherException "OSError" "cannot create the output directory"), w)
  | S n => (Ret cfg, mkMock n (mock_remote w) (mock_timeouts w) (mock_cache w) (mock_unreadable w))
  end.

Definition mock_has (w : MockWorld) (word : string) (a : AccentType) : bool :=
  bool_decide ((word, a) ∈ mock_remote w).

Definition mock_download_pronunciation (cfg : DownloadConfig) (word : string)
    (a : AccentType) (w : MockWorld) : res (option Path) * MockWorld :=
  if bool_decide (word ∈ mock_timeouts w) then
    (Raise (DownloadError ("Timeout while fetching '" +:+ word +:+ "'")), w)
  else if mock_has w word a then (Ret (Some (mock_path cfg word a)), w)
  else (Ret None, w).

Definition mock_download_all_accents (cfg : DownloadConfig) (word : string)
    (w : MockWorld) : res (list Path) * MockWorld :=
  (Ret (map (mock_path cfg word)
          (filter (fun a => mock_has w word a = true /\
                            ~ (a = US /\ word ∈ mock_timeouts w)) [GB; US])), w).

(** Is the metadata asked for readable?  All of it when no word is given. *)
Definition mock_readable (w : MockWorld) (word : option string) : bool :=
  match word with
  | None => bool_decide (mock_unreadable w = [])
  | Some k => bool_decide (k ∉ mock_unreadable w)
  end.

Definition mock_get_cache_info (cfg : DownloadConfig) (word : option string)
    (w : MockWorld) : res dict * MockWorld :=
  if mock_readable w word then
    match word with
    | None => (Ret (mock_cache w), w)
    | Some k => (Ret (filter (fun kv => fst kv = k) (mock_cache w)), w)
    end
  else (Raise (CacheError "Corrupt cache metadata"), w).

Definition mock_clear_cache (cfg : DownloadConfig) (word : option string)
    (w : MockWorld) : res unit * MockWorld :=
  if mock_readable w word then
    let kept := match word with
                | None => []
                | Some k => filter (fun kv => fst kv <> k) (mock_cache w)
                end in
    (Ret tt, mkMock (mock_inits_left w) (mock_remote w) (mock_timeouts w) kept
               (mock_unreadable w))
  else (Raise (CacheError "Corrupt cache metadata"), w).

#[global] Instance mock_api : DownloaderAPI MockWorld := {|
  Downloader := DownloadConfig;
  dl_init := mock_init;
  dl_download_all_accents := mock_download_all_accents;
  dl_download_pronunciation := mock_download_pronunciation;
  dl_get_cache_info := mock_get_cache_info;
  dl_clear_cache := mock_clear_cache
|}.

(** [int] on decimal digits with an optional minus sign; the test double
    rejects every other string. *)
Definition digit_value (c : Ascii.ascii) : option Z :=
  let n := Ascii.nat_of_ascii c in
  if (48 <=? n)%nat && (n <=? 57)%nat then Some (Z.of_nat (n - 48)) else None.

Fixpoint digits_value (acc : Z) (s : string) : option Z :=
  match s with
  | EmptyString => Some acc
  | String c s' =>
      match digit_value c with
      | Some d => digits_value (10 * acc + d) s'
      | None => None
      end
  end.

Definition mock_int (s : string) : option Z :=
  match s with
  | EmptyString => None
  | String c s' =>
      if Ascii.eqb c (Ascii.ascii_of_nat 45) then
        match s' with
        | EmptyString => None
        | _ => Z.opp <$> digits_value 0 s'
        end
      else digits_value 0 s
  end.

Definition dquote : string := String (Ascii.ascii_of_nat 34) EmptyString.

Definition mock_dumps (v : Json) (indent : nat) : string :=
  match v with
  | JNull => "null"
  | JBool b => if b then "true" else "false"
  | JInt z => pretty z
  | JStr s => dquote +:+ s +:+ dquote
  | JList _ => "[...]"
  | JDict _ => "{...}"
  end.

#[global] Instance mock_lib : PyLib := {|
  py_int := mock_int;
  py_repr := fun s => "'" +:+ s +:+ "'";
  json_dumps := mock_dumps
|}.

(** A world where the service knows "hello" in both accents and "cat" in the
    British one only, with one cached entry. *)
Definition demo_world : MockWorld :=
  {| mock_inits_left := 2;
     mock_remote := [("hello", GB); ("hello", US); ("cat", GB)];
     mock_timeouts := [];
     mock_cache := [("hello", JStr "pronunciations/hello_us.mp3")];
     mock_unreadable := [] |}.

(** The same world with the metadata record of "hello" damaged. *)
Definition damaged_world : MockWorld :=
  {| mock_inits_left := 2;
     mock_remote := [("hello", GB); ("hello", US); ("cat", GB)];
     mock_timeouts := [];
     mock_cache := [("hello", JStr "pronunciations/hello_us.mp3")];
     mock_unreadable := ["hello"] |}.

(** A world where the output directory can be set up only once. *)
Definition fragile_world : MockWorld :=
  {| mock_inits_left := 1;
     mock_remote := [("hello", GB); ("hello", US); ("cat", GB)];
     mock_timeouts := ["cat"];
     mock_cache := [];
     mock_unreadable := [] |}.

(** * The cache index

    The cache index lives in [downloader.py], which is not among the
    sources; [cli.py] only reaches it through [get_cache_info] and
    [clear_cache].  The definitions of this module follow sections 3 and 4.1
    of the specification: a cache entry per (word, accent), a directory of
    audio files plus a metadata record, and the operations [lookup],
    [store], [clear] and [listAll].  An operation is a sequence of durable
    writes; it can stop after any of them, so the state between the two
    writes of a [store] is a state of the model like any other. *)
Module CacheIndex.

#[global] Instance AccentType_countable : Countable AccentType.
Proof.
  apply (inj_countable' (fun a => match a with GB => true | US => false end)
           (fun b : bool => if b then GB else US)).
  intros []; reflexivity.
Defined.

Abbreviation key := (string * AccentType)%type.

Abbreviation bytes := (list Byte.byte).

(** A path, as the list of its components. *)
Abbreviation fpath := (list string).

(** Modelled from the spec: the cache entry of section 3,
    [{ word, accent, filePath, fetchedAt, sourceUrl }], keyed by
    (word, accent). *)
Record CacheEntry := mkEntry {
  word : string;
  accent : AccentType;
  filePath : fpath;
  fetchedAt : Z;
  sourceUrl : string
}.

Definition entry_key (e : CacheEntry) : key := (word e, accent e).

(** Modelled from the spec: the persisted state of section 6, a directory
    tree under the output directory with one audio file per (word, accent),
    plus the metadata record. *)
Record Cache := mkCache {
  outputDir : string;
  files : gmap fpath bytes;
  meta : gmap key CacheEntry
}.


(** Modelled from the spec: the file of a key, [<output>/<word>/<accent>.mp3]
    as in the scenario of section 8. *)
Definition audio_path (dir : string) (k : key) : fpath :=
  [dir; k.1; accent_value k.2 +:+ ".mp3"].

Inductive outcome (A : Type) :=
| Done (a : A)
| IOError.
Arguments Done {A} a.
Arguments IOError {A}.

(** Modelled from the spec: the durable writes of the cache index, which is
    in the absent [downloader.py].  Section 4.1 has two writes in a [store],
    the audio file and its metadata record, and [clear] deletes "cached
    files/metadata" (section 6): a file or a record is written, or
    removed. *)
Inductive write :=
| WriteFile (p : fpath) (b : bytes)
| WriteRecord (e : CacheEntry)
| RemoveRecord (k : key)
| RemoveFile (p : fpath).

Definition perform (c : Cache) (w : write) : Cache :=
  match w with
  | WriteFile p b => mkCache (outputDir c) (<[p := b]> (files c)) (meta c)
  | WriteRecord e => mkCache (outputDir c) (files c) (<[entry_key e := e]> (meta c))
  | RemoveRecord k => mkCache (outputDir c) (files c) (delete k (meta c))
  | RemoveFile p => mkCache (outputDir c) (delete p (files c)) (meta c)
  end.

Definition perform_all (c : Cache) (ws : list write) : Cache :=
  fold_left perform ws c.

(** Where an operation stops: [None] when it runs to completion, [Some n]
    when only its first [n] writes take place, because the next one fails
    with [IOError] or because the process is killed at that point. *)
Definition upto (stop : option nat) (ws : list write) : list write :=
  match stop with
  | None => ws
  | Some n => take n ws
  end.

Definition stops_early (stop : option nat) (ws : list write) : bool :=
  match stop with
  | None => false
  | Some n => Nat.ltb n (length ws)
  end.


(** Modelled from the spec: the two writes of a [store], section 4.1.  "A
    crash between the two must not produce a dangling reference", so the
    audio file is written first and the metadata record second.  The spec
    states no check of the bytes and nothing that undoes the first write
    when the second does not happen. *)
Definition store_writes (c : Cache) (w : string) (a : AccentType) (audio : bytes)
    (at_time : Z) (url : string) : list write :=
  let e := mkEntry w a (audio_path (outputDir c) (w, a)) at_time url in
  [WriteFile (filePath e) audio; WriteRecord e].

(** Modelled from the spec: [store(entry) -> success | IOError], with the
    audio bytes of the fetch; "a store is only considered complete once
    both the audio file and its metadata record are durably written". *)
Definition store (c : Cache) (w : string) (a : AccentType) (audio : bytes)
    (at_time : Z) (url : string) (stop : option nat) : outcome CacheEntry * Cache :=
  let e := mkEntry w a (audio_path (outputDir c) (w, a)) at_time url in
  let ws := store_writes c w a audio at_time url in
  let c' := perform_all c (upto stop ws) in
  if stops_early stop ws then (IOError, c') else (Done e, c').

(** The keys a [clear] is about: both accents of a word, or every entry. *)
Definition clear_targets (c : Cache) (w : option string) : list key :=
  match w with
  | Some word => [(word, GB); (word, US)]
  | None => (map_to_list (meta c)).*1
  end.

(** The two removals of the entry of key [k] in the metadata [m], if there
    is one.  The spec gives no order for them; the record goes first, which
    is the order that leaves no dangling reference at the point between the
    two, as section 4.1 asks of [store]. *)
Definition removal (m : gmap key CacheEntry) (k : key) : list write :=
  match m !! k with
  | Some e => [RemoveRecord k; RemoveFile (filePath e)]
  | None => []
  end.

Definition clear_writes (c : Cache) (w : option string) : list write :=
  flat_map (removal (meta c)) (clear_targets c w).

(** Modelled from the spec: [listAll(word?) -> mapping word -> [CacheEntry]],
    as the list of the entries concerned. *)
Definition listAll (c : Cache) (w : option string) : list CacheEntry :=
  match w with
  | Some word => omap (fun k => meta c !! k) [(word, GB); (word, US)]
  | None => (map_to_list (meta c)).*2
  end.

(** Modelled from the spec: [clear(word?) -> count removed]; the entries
    removed are those that [listAll] shows for the same argument. *)
Definition clear (c : Cache) (w : option string) (stop : option nat)
    : outcome nat * Cache :=
  let ws := clear_writes c w in
  let c' := perform_all c (upto stop ws) in
  if stops_early stop ws then (IOError, c') else (Done (length (listAll c w)), c').

(** The operations that change the persisted state. *)
Inductive op :=
| OpStore (w : string) (a : AccentType) (audio : bytes) (at_time : Z) (url : string)
| OpClear (w : option string).

(** An operation of a history, with the point where it stopped. *)
Definition apply_op (c : Cache) (o : op * option nat) : Cache :=
  match o with
  | (OpStore w a audio t url, stop) => (store c w a audio t url stop).2
  | (OpClear w, stop) => (clear c w stop).2
  end.

(** The persisted state after a history of operations.  Since an operation
    of the history may stop after any number of its writes, these are the
    states at every point of every run, not only between operations. *)
Definition run_ops (c : Cache) (history : list (op * option nat)) : Cache :=
  fold_left apply_op history c.






End CacheIndex.

(** ** Sample command lines and worlds *)

Definition download_ns (ws : list string) (a : string) (nocache : bool) : Namespace :=
  {| command := Some "download"; words := Some ws; accent := Some a;
     output_dir := PyPath "pronunciations"; timeout := 10;
     verbose := false; no_cache := nocache; force_download_flag := false |}.

Definition cache_info_ns (ws : list string) : Namespace :=
  {| command := Some "cache-info"; words := Some ws; accent := None;
     output_dir := PyPath "pronunciations"; timeout := 10;
     verbose := false; no_cache := false; force_download_flag := false |}.

(** [download hello], [download hello cat -a us], [--no-cache download hello],
    [cache-info] and [cache-info cat hello]. *)
Definition argv_hello : cmdline :=
  mkCmdline [] (Some ("download", [ArgWord "hello"])).

Definition argv_hello_cat_us : cmdline :=
  mkCmdline [] (Some ("download", [ArgWord "hello"; ArgWord "cat"; ArgAccent "us"])).

Definition argv_no_cache : cmdline :=
  mkCmdline [OptNoCache] (Some ("download", [ArgWord "hello"])).

Definition argv_cache_info : cmdline :=
  mkCmdline [] (Some ("cache-info", [])).

Definition argv_cache_info_cat_hello : cmdline :=
  mkCmdline [] (Some ("cache-info", [ArgWord "cat"; ArgWord "hello"])).

Definition default_config : DownloadConfig :=
  make_config (download_ns ["hello"] "all" false).

(** [demo_world] and [fragile_world] once a downloader has been constructed. *)
Definition demo_world_1 : MockWorld :=
  mkMock 1 (mock_remote demo_world) [] (mock_cache demo_world) [].

Definition fragile_world_0 : MockWorld :=
  mkMock 0 (mock_remote fragile_world) ["cat"] [] [].




(** ** Reading a command line *)

(** The positionals among the arguments of a sub-command, in order. *)
Definition arg_words (args : list sub_arg) : list string :=
  omap (fun a => match a with ArgWord w => Some w | _ => None end) args.

(** The values given to [-a/--accent], in order. *)
Definition accent_values (args : list sub_arg) : list string :=
  omap (fun a => match a with ArgAccent v => Some v | _ => None end) args.

(** The values given to [-o/--output-dir], in order. *)
Definition output_dir_values (os : list global_opt) : list string :=
  omap (fun o => match o with OptOutputDir v => Some v | _ => None end) os.

(** The values given to [-t/--timeout], in order. *)
Definition timeout_values (os : list global_opt) : list string :=
  omap (fun o => match o with OptTimeout v => Some v | _ => None end) os.

(** The occurrences no declared option matches. *)
Definition is_OptUnknown (o : global_opt) : bool :=
  match o with OptUnknown _ => true | _ => false end.

Definition is_ArgUnknown (a : sub_arg) : bool :=
  match a with ArgUnknown _ => true | _ => false end.

(** The positionals a sub-parser has read so far. *)
Definition words_list (w : words_state) : list string :=
  match w with
  | WNone => []
  | WOpen ws | WClosed ws => ws
  end.

(** ** More ways to read a trace *)

(** The sub-command whose handler makes the call or prints the line. *)
Definition event_command (ev : event) : option string :=
  match ev with
  | EvAccentType _ _ | EvDownloadAll _ _ | EvDownloadOne _ _ _ => Some "download"
  | EvGetCacheInfo _ _ | EvPrint _ => Some "cache-info"
  | EvClearCache _ _ => Some "clear-cache"
  | EvBasicConfig _ | EvLogError _ | EvInit _ _ => None
  end.

(** The messages that [cli.py] logs at level ERROR with its own
    [logging.error] calls, in order. *)
Definition error_records (tr : list event) : list string :=
  omap (fun ev => match ev with EvLogError msg => Some msg | _ => None end) tr.

(** The argument of each call a handler makes for its list of words: one
    call per word, or a single call without argument when there is none. *)
Definition call_targets (ws : list string) : list (option string) :=
  match ws with
  | [] => [None]
  | _ :: _ => map Some ws
  end.

(** The targets of the cache queries and of the cache removals of a trace. *)
Definition queried (tr : list event) : list (option string) :=
  omap (fun ev => match ev with EvGetCacheInfo t _ => Some t | _ => None end) tr.

Definition cleared (tr : list event) : list (option string * res unit) :=
  omap (fun ev => match ev with EvClearCache t r => Some (t, r) | _ => None end) tr.

Section RunObservations.
Context {World : Type}.

(** An exception that ends [m] is an [Exception], or was raised by a call
    that the trace records. *)
Definition accounted {A} (m : M World A) : Prop :=
  forall w e, result (m w) = Raise e ->
    is_Exception e = true \/ exists ev, ev ∈ trace (m w) /\ raised ev = Some e.

(** When [m] returns, it returns 0 or 1. *)
Definition returns_0_or_1 (m : M World Z) : Prop :=
  forall w c, result (m w) = Ret c -> c = 0%Z \/ c = 1%Z.

(** [m] returns 0 exactly when it made no [logging.error] call. *)
Definition quiet_iff_zero (m : M World Z) : Prop :=
  forall w c, result (m w) = Ret c ->
    (c = 0%Z <-> error_records (trace (m w)) = []).

(** Lines 148-150 applied to the outcome of the body of the [try]. *)
Definition clear_cache_result (r : run World unit) : run World Z :=
  match result r with
  | Ret _ => Run (Ret 0%Z) (final r) (trace r)
  | Raise e =>
      if is_Exception e then
        Run (Ret 1%Z) (final r)
          (trace r ++ [EvLogError ("Error clearing cache: " +:+ exn_str e)])
      else Run (Raise e) (final r) (trace r)
  end.

End RunObservations.

Section ClearLoop.
Context {World : Type} {api : DownloaderAPI World}.

(** Line 144: the body of the loop of [clear_cache]. *)
Definition clear_word (d : Downloader) (_ : unit) (word : string) : M World unit :=
  downloader_clear_cache d (Some word).

End ClearLoop.

(** [-v download hello], [download] without a sub-command, [clear-cache cat hello]. *)
Definition argv_verbose : cmdline :=
  mkCmdline [OptVerbose; OptTimeout "5"; OptOutputDir "a"; OptOutputDir "b"]
    (Some ("download", [ArgAccent "gb"; ArgWord "hello"; ArgWord "cat"; ArgAccent "us"])).

Definition verbose_ns : Namespace :=
  {| command := Some "download"; words := Some ["hello"; "cat"]; accent := Some "us";
     output_dir := PyPath "b"; timeout := 5;
     verbose := true; no_cache := false; force_download_flag := false |}.

Definition argv_none : cmdline := mkCmdline [] None.

Definition none_ns : Namespace := default_Namespace.

Definition argv_clear_cat_hello : cmdline :=
  mkCmdline [] (Some ("clear-cache", [ArgWord "cat"; ArgWord "hello"])).

Definition clear_ns (ws : list string) : Namespace :=
  {| command := Some "clear-cache"; words := Some ws; accent := None;
     output_dir := PyPath "pronunciations"; timeout := 10;
     verbose := false; no_cache := false; force_download_flag := false |}.

Definition argv_bad_timeout : cmdline :=
  mkCmdline [OptTimeout "soon"] (Some ("download", [ArgWord "hello"])).

(** A world where the constructor fails at once. *)
Definition broken_world : MockWorld :=
  {| mock_inits_left := 0;
     mock_remote := [("hello", GB)];
     mock_timeouts := [];
     mock_cache := [];
     mock_unreadable := [] |}.

(** [damaged_world] once a downloader has been constructed. *)
Definition damaged_world_1 : MockWorld :=
  mkMock 1 (mock_remote damaged_world) [] (mock_cache damaged_world) ["hello"].

(** A second test double, without state: the user interrupts the download
    of the word "stop"; every other download produces one file. *)
Definition impatient_download_all (_ : unit) (word : string) (w : unit)
    : res (list Path) * unit :=
  if String.eqb word "stop" then (Raise KeyboardInterrupt, w)
  else (Ret [PyPath (word +:+ ".mp3")], w).

Definition impatient_download (_ : unit) (word : string) (_ : AccentType) (w : unit)
    : res (option Path) * unit :=
  if String.eqb word "stop" then (Raise KeyboardInterrupt, w)
  else (Ret (Some (PyPath (word +:+ ".mp3"))), w).

#[global] Instance impatient_api : DownloaderAPI unit := {|
  Downloader := unit;
  dl_init := fun _ w => (Ret tt, w);
  dl_download_all_accents := impatient_download_all;
  dl_download_pronunciation := impatient_download;
  dl_get_cache_info := fun _ _ w => (Ret [], w);
  dl_clear_cache := fun _ _ w => (Ret tt, w)
|}.

(** The constructions of a downloader recorded in a trace. *)
Definition constructions (tr : list event) : list (DownloadConfig * res unit) :=
  omap (fun ev => match ev with EvInit c r => Some (c, r) | _ => None end) tr.

(** The download method an event is a call of: [true] for
    [download_all_accents], [false] for [download_pronunciation] and for the
    conversion of the accent that precedes it. *)
Definition download_method (ev : event) : option bool :=
  match ev with
  | EvDownloadAll _ _ => Some true
  | EvDownloadOne _ _ _ | EvAccentType _ _ => Some false
  | _ => None
  end.

(** An occurrence of a top-level option that [argparse] accepts: a declared
    option other than help, with an integer when it is [-t/--timeout]. *)
Definition valid_global `{PyLib} (o : global_opt) : Prop :=
  match o with
  | OptOutputDir _ | OptVerbose | OptNoCache | OptForceDownload => True
  | OptTimeout v => is_Some (py_int v)
  | OptHelp | OptUnknown _ | OptInvalid => False
  end.

(** The arguments of a download command in the usual shape: accent options,
    then the words, then accent options again. *)
Definition download_args (before : list string) (ws : list string) (after : list string)
    : list sub_arg :=
  ((ArgAccent <$> before) ++ (ArgWord <$> ws) ++ (ArgAccent <$> after))%list.
(** ** What [parse_args] guarantees *)

Section ParseFacts.
Context {lib : PyLib}.

(** A top-level option only touches its own destination. *)
Lemma global_action_fields ns ex o ns' ex' :
  global_action (ns, ex) o = Ret (ns', ex') ->
  command ns' = command ns /\ words ns' = words ns /\ accent ns' = accent ns /\
  (is_OptOutputDir o = false -> output_dir ns' = output_dir ns) /\
  (is_OptTimeout o = false -> timeout ns' = timeout ns) /\
  no_cache ns' = (no_cache ns || bool_decide (o = OptNoCache)) /\
  force_download_flag ns' = (force_download_flag ns || bool_decide (o = OptForceDownload)).
Proof.
  destruct o; simpl; try discriminate;
    try (destruct (py_int value); try discriminate);
    intros [= <- <-]; simpl;
    rewrite ?orb_false_r, ?orb_true_r; repeat split; congruence.
Qed.

Lemma global_actions_fields os : forall ns ex ns' ex',
  global_actions (ns, ex) os = Ret (ns', ex') ->
  command ns' = command ns /\ words ns' = words ns /\ accent ns' = accent ns /\
  (existsb is_OptOutputDir os = false -> output_dir ns' = output_dir ns) /\
  (existsb is_OptTimeout os = false -> timeout ns' = timeout ns) /\
  no_cache ns' = (no_cache ns || bool_decide (OptNoCache ∈ os)) /\
  force_download_flag ns' = (force_download_flag ns || bool_decide (OptForceDownload ∈ os)).
Proof.
  induction os as [|o os IH]; intros ns ex ns' ex'; cbn [global_actions existsb].
  - intros [= <- <-]. rewrite !orb_false_r. repeat split; reflexivity.
  - destruct (global_action (ns, ex) o) as [[ns1 ex1]|e] eqn:Ho; [|intros; discriminate].
    intros Hos.
    apply global_action_fields in Ho as (Hc & Hw & Ha & Ho' & Ht & Hn & Hf).
    apply IH in Hos as (Hc' & Hw' & Ha' & Ho'' & Ht' & Hn' & Hf').
    repeat split; try congruence.
    + intros [H1 H2]%orb_false_iff. rewrite Ho'', Ho'; auto.
    + intros [H1 H2]%orb_false_iff. rewrite Ht', Ht; auto.
    + rewrite Hn', Hn, <- orb_assoc. f_equal.
      destruct (decide (o = OptNoCache)) as [->|Hne].
      * rewrite (bool_decide_eq_true_2 (OptNoCache ∈ OptNoCache :: os)) by left.
        rewrite bool_decide_eq_true_2 by reflexivity. reflexivity.
      * rewrite (bool_decide_eq_false_2 (o = OptNoCache)) by assumption. simpl.
        apply bool_decide_ext. rewrite elem_of_cons. intuition congruence.
    + rewrite Hf', Hf, <- orb_assoc. f_equal.
      destruct (decide (o = OptForceDownload)) as [->|Hne].
      * rewrite (bool_decide_eq_true_2 (OptForceDownload ∈ OptForceDownload :: os)) by left.
        rewrite bool_decide_eq_true_2 by reflexivity. reflexivity.
      * rewrite (bool_decide_eq_false_2 (o = OptForceDownload)) by assumption. simpl.
        apply bool_decide_ext. rewrite elem_of_cons. intuition congruence.
Qed.

Lemma sub_action_accent h st a st' :
  sub_action h st a = Ret st' ->
  sub_accent st ∈ accent_choices -> sub_accent st' ∈ accent_choices.
Proof.
  destruct a; simpl; try discriminate.
  - destruct (sub_words st); intros [= <-]; auto.
  - destruct h.
    + case_bool_decide; [|discriminate]. intros [= <-]; auto.
    + intros [= <-]; auto.
  - intros [= <-]; auto.
Qed.

Lemma sub_actions_accent h args : forall st st',
  sub_actions h st args = Ret st' ->
  sub_accent st ∈ accent_choices -> sub_accent st' ∈ accent_choices.
Proof.
  induction args as [|a args IH]; intros st st'; cbn [sub_actions].
  - intros [= <-]; auto.
  - destruct (sub_action h st a) as [st1|e] eqn:Ha; [|intros; discriminate].
    intros Hs Hin. eapply IH; eauto using sub_action_accent.
Qed.

(** What a sub-command parser leaves in the namespace. *)
Lemma parse_subcommand_fields ns ex name args ns' ex' :
  parse_subcommand ns ex name args = Ret (ns', ex') ->
  command ns' = Some name /\
  output_dir ns' = output_dir ns /\ timeout ns' = timeout ns /\
  no_cache ns' = no_cache ns /\ force_download_flag ns' = force_download_flag ns /\
  (exists ws, words ns' = Some ws) /\
  (name = "download" -> exists a, accent ns' = Some a /\ a ∈ accent_choices).
Proof.
  unfold parse_subcommand.
  destruct (String.eqb name "download") eqn:Hd.
  - destruct (sub_actions true _ args) as [st|e] eqn:Hs; [|discriminate].
    destruct (words_read (sub_words st)) as [ws|]; [|discriminate].
    intros [= <- <-]; simpl. repeat split; eauto.
    intros _. eexists; split; [reflexivity|].
    eapply sub_actions_accent; [exact Hs|]. simpl. set_solver.
  - destruct (String.eqb name "cache-info" || String.eqb name "clear-cache");
      [|discriminate].
    destruct (sub_actions false _ args) as [st|e] eqn:Hs; [|discriminate].
    intros [= <- <-]; simpl. repeat split; eauto.
    intros ->. discriminate.
Qed.

(** The namespace of a command line that [parse_args] accepts. *)
Lemma parse_args_fields argv ns :
  parse_args argv = Ret ns ->
  (existsb is_OptOutputDir (globals argv) = false ->
     output_dir ns = PyPath "pronunciations") /\
  (existsb is_OptTimeout (globals argv) = false -> timeout ns = 10%Z) /\
  no_cache ns = bool_decide (OptNoCache ∈ globals argv) /\
  force_download_flag ns = bool_decide (OptForceDownload ∈ globals argv) /\
  (forall name, command ns = Some name ->
     (exists ws, words ns = Some ws) /\
     (name = "download" -> exists a, accent ns = Some a /\ a ∈ accent_choices)).
Proof.
  unfold parse_args.
  destruct (global_actions _ (globals argv)) as [[ns1 ex1]|e] eqn:Hg; [|discriminate].
  apply global_actions_fields in Hg as (Hc & Hw & Ha & Ho & Ht & Hn & Hf).
  simpl in Hc, Ho, Ht, Hn, Hf.
  destruct (subcommand argv) as [[name args]|].
  - destruct (parse_subcommand ns1 ex1 name args) as [[ns2 ex2]|e] eqn:Hp; [|discriminate].
    destruct ex2; [discriminate|]. intros [= <-].
    apply parse_subcommand_fields in Hp as (Hc2 & Ho2 & Ht2 & Hn2 & Hf2 & Hw2 & Ha2).
    repeat split; try congruence.
    + intros H. rewrite Ho2. auto.
    + intros H. rewrite Ht2. auto.
    + intros ->. apply Ha2. congruence.
  - destruct ex1; [discriminate|]. intros [= <-].
    repeat split; auto; congruence.
Qed.

(** A run of positionals that has been read is never empty. *)
Lemma sub_action_wf h st a st' :
  sub_action h st a = Ret st' -> words_wf (sub_words st) -> words_wf (sub_words st').
Proof.
  destruct a; simpl; try discriminate.
  - destruct (sub_words st) as [|ws|ws]; intros [= <-]; simpl; auto.
    intros _. destruct ws; discriminate.
  - destruct h; [case_bool_decide; [|discriminate]|];
      intros [= <-]; simpl; destruct (sub_words st); auto.
  - intros [= <-]; simpl; destruct (sub_words st); auto.
Qed.

Lemma sub_actions_wf h args : forall st st',
  sub_actions h st args = Ret st' -> words_wf (sub_words st) -> words_wf (sub_words st').
Proof.
  induction args as [|a args IH]; intros st st'; cbn [sub_actions].
  - intros [= <-]; auto.
  - destruct (sub_action h st a) as [st1|e] eqn:Ha; [|intros; discriminate].
    intros Hs Hwf. eapply IH; eauto using sub_action_wf.
Qed.

(** [nargs="+"]: a parsed [download] command has at least one word. *)
Lemma parse_args_download_words argv ns :
  parse_args argv = Ret ns -> command ns = Some "download" ->
  exists ws, words ns = Some ws /\ ws <> [].
Proof.
  unfold parse_args.
  destruct (global_actions _ (globals argv)) as [[ns1 ex1]|e] eqn:Hg; [|discriminate].
  apply global_actions_fields in Hg as (Hc & _).
  destruct (subcommand argv) as [[name args]|].
  - destruct (parse_subcommand ns1 ex1 name args) as [[ns2 ex2]|e] eqn:Hp; [|discriminate].
    destruct ex2; [discriminate|]. intros [= <-] Hcmd.
    unfold parse_subcommand in Hp.
    destruct (String.eqb name "download") eqn:Hd.
    + destruct (sub_actions true _ args) as [st|e] eqn:Hs; [|discriminate].
      apply sub_actions_wf in Hs; [|exact I].
      destruct (sub_words st) as [|ws|ws]; simpl in Hp; [discriminate| |];
        injection Hp as <- _; simpl; eauto.
    + destruct (String.eqb name "cache-info" || String.eqb name "clear-cache");
        [|discriminate].
      destruct (sub_actions false _ args); [|discriminate].
      injection Hp as <- _. simpl in Hcmd. injection Hcmd as ->. discriminate.
  - destruct ex1; [discriminate|]. intros [= <-] Hcmd. simpl in Hc. congruence.
Qed.

End ParseFacts.

(** ** Reasoning about runs *)

Section RunFacts.
Context {World : Type}.

Lemma emits_ret P {A} (a : A) : emits P (@ret World A a).
Proof. intros w. constructor. Qed.

Lemma emits_raise P {A} e : emits P (@raise World A e).
Proof. intros w. constructor. Qed.

Lemma emits_pure P {A} (r : res A) : emits P (fun w : World => Run r w []).
Proof. intros w. constructor. Qed.

Lemma emits_emit (P : event -> Prop) ev : P ev -> emits P (@emit World ev).
Proof. intros H w. repeat constructor. exact H. Qed.

Lemma emits_call (P : event -> Prop) {A} (f : World -> res A * World) ev :
  (forall r, P (ev r)) -> emits P (call f ev).
Proof.
  intros H w. unfold call. destruct (f w) as [r w']. repeat constructor. apply H.
Qed.

(** The continuation only has to behave on the values [m] can return. *)
Lemma emits_bind P {A B} (m : M World A) (k : A -> M World B) :
  emits P m ->
  (forall w a, result (m w) = Ret a -> emits P (k a)) ->
  emits P (bind m k).
Proof.
  intros Hm Hk w. unfold bind.
  destruct (result (m w)) as [a|e] eqn:Hr; simpl.
  - apply Forall_app. split; [apply Hm | eapply Hk; eauto].
  - apply Hm.
Qed.

Lemma emits_try_except P {A} (body : M World A) handler :
  emits P body ->
  (forall e h, handler e = Some h -> emits P h) ->
  emits P (try_except body handler).
Proof.
  intros Hb Hh w. unfold try_except.
  destruct (result (body w)) as [a|e]; [apply Hb|].
  destruct (handler e) as [h|] eqn:He; [|apply Hb].
  simpl. apply Forall_app. split; [apply Hb | eapply Hh; eauto].
Qed.

Lemma emits_for_in P {A S} (xs : list A) (body : S -> A -> M World S) :
  (forall s x, x ∈ xs -> emits P (body s x)) ->
  forall s, emits P (for_in xs body s).
Proof.
  induction xs as [|x xs IH]; intros Hb s; cbn [for_in].
  - apply emits_ret.
  - apply emits_bind.
    + apply Hb. left.
    + intros _ s' _. apply IH. intros s0 y Hy. apply Hb. right. exact Hy.
Qed.

Lemma for_in_cons {A S} (x : A) (xs : list A) (body : S -> A -> M World S) s w :
  for_in (x :: xs) body s w =
  let r := body s x w in
  match result r with
  | Ret s' =>
      let r' := for_in xs body s' (final r) in
      Run (result r') (final r') (trace r ++ trace r')
  | Raise e => Run (Raise e) (final r) (trace r)
  end.
Proof. reflexivity. Qed.

(** The loop over a concatenation runs the first part, then the second. *)
Lemma for_in_app {A S} (xs ys : list A) (body : S -> A -> M World S) : forall s w,
  for_in (xs ++ ys) body s w =
  let r := for_in xs body s w in
  match result r with
  | Ret s' =>
      let r' := for_in ys body s' (final r) in
      Run (result r') (final r') (trace r ++ trace r')
  | Raise e => Run (Raise e) (final r) (trace r)
  end.
Proof.
  induction xs as [|x xs IH]; intros s w.
  - simpl. destruct (for_in ys body s w); reflexivity.
  - cbn [for_in app]. unfold bind.
    destruct (body s x w) as [[s1|e] w1 t1]; cbn [result final trace]; [|reflexivity].
    rewrite IH. cbn zeta.
    destruct (for_in xs body s1 w1) as [[s2|e] w2 t2]; cbn [result final trace];
      [|reflexivity].
    rewrite app_assoc. reflexivity.
Qed.

End RunFacts.

Ltac handler_cases H :=
  repeat match type of H with
         | (if ?b then _ else _) = Some _ => destruct b eqn:?
         | (let _ := _ in _) = Some _ => cbv zeta in H
         | None = Some _ => discriminate H
         | Some _ = Some _ => injection H as <-
         end.

Ltac emits_step :=
  match goal with
  | |- emits _ (ret _) => apply emits_ret
  | |- emits _ (raise _) => apply emits_raise
  | |- emits _ (fun w => Run _ w []) => apply emits_pure
  | |- emits _ (emit _) => apply emits_emit
  | |- emits _ (call _ _) => apply emits_call; intros ?
  | |- emits _ (bind _ _) =>
      let H := fresh "Hr" in
      apply emits_bind; [|intros ? ? H; try discriminate H]
  | |- emits _ (try_except _ _) =>
      let H := fresh "Hh" in
      apply emits_try_except; [|intros ? ? H; cbv beta in H; handler_cases H]
  | |- emits _ (for_in _ _ _) => apply emits_for_in; intros ? ? ?
  | |- emits _ (match ?x with _ => _ end) => destruct x eqn:?
  end.

(** ** The command line and the configuration *)

Section CLIFacts.
Context {World : Type} {api : DownloaderAPI World} {lib : PyLib}.

Lemma no_OptOutputDir os :
  (forall v, OptOutputDir v ∉ os) -> existsb is_OptOutputDir os = false.
Proof.
  intros H. apply not_true_is_false. intros (o & Hin & Ho)%existsb_exists.
  destruct o; try discriminate. apply (H value). apply list_elem_of_In. exact Hin.
Qed.

Lemma no_OptTimeout os :
  (forall v, OptTimeout v ∉ os) -> existsb is_OptTimeout os = false.
Proof.
  intros H. apply not_true_is_false. intros (o & Hin & Ho)%existsb_exists.
  destruct o; try discriminate. apply (H value). apply list_elem_of_In. exact Hin.
Qed.

(** C8.  When the command line has no [-o/--output-dir], the parsed output
    directory is the path [pronunciations]; when it has no [-t/--timeout],
    the parsed timeout is 10. *)
Theorem parse_args_defaults argv ns :
  parse_args argv = Ret ns ->
  ((forall v, OptOutputDir v ∉ globals argv) ->
     output_dir ns = PyPath "pronunciations") /\
  ((forall v, OptTimeout v ∉ globals argv) -> timeout ns = 10%Z).
Proof.
  intros (Ho & Ht & _)%parse_args_fields. split; intros H.
  - apply Ho, no_OptOutputDir, H.
  - apply Ht, no_OptTimeout, H.
Qed.

(** The events of [process_words]: what the single constructor call and the
    conversions of the accent leave behind. *)
Lemma process_words_emits (P : event -> Prop) ws config a :
  (forall r, P (EvInit config r)) ->
  (a <> "all" -> P (EvAccentType a (AccentType_of a))) ->
  (forall ev, (forall c r, ev <> EvInit c r) -> (forall s r, ev <> EvAccentType s r) -> P ev) ->
  emits P (process_words ws config a).
Proof.
  intros Hinit Hacc Hother.
  unfold process_words, GooglePronunciationDownloader, process_word, word_handler,
    fetch_paths, download_all_accents, download_pronunciation, logging_error.
  repeat emits_step; try (apply Hinit); try (apply Hother; discriminate).
  intros w'. unfold AccentType_call. repeat constructor. apply Hacc.
  intros ->. discriminate.
Qed.

Lemma show_cache_info_emits (P : event -> Prop) d ws :
  (forall ev, plain_event ev -> P ev) -> emits P (show_cache_info d ws).
Proof.
  intros Hother.
  unfold show_cache_info, cache_info_handler, show_all, show_word, subscript,
    get_cache_info, print, logging_error.
  repeat emits_step; apply Hother; split; discriminate.
Qed.

Lemma clear_cache_emits (P : event -> Prop) d ws :
  (forall ev, plain_event ev -> P ev) -> emits P (clear_cache d ws).
Proof.
  intros Hother.
  unfold clear_cache, clear_cache_handler, downloader_clear_cache, logging_error.
  repeat emits_step; apply Hother; split; discriminate.
Qed.

(** The events of a whole run of [main]. *)
Lemma main_emits (P : event -> Prop) argv :
  (forall ns r, parse_args argv = Ret ns -> P (EvInit (make_config ns) r)) ->
  (forall ns a, parse_args argv = Ret ns -> command ns = Some "download" ->
     accent ns = Some a -> a <> "all" -> P (EvAccentType a (AccentType_of a))) ->
  (forall ev, plain_event ev -> P ev) ->
  emits P (main argv).
Proof.
  intros Hinit Hacc Hother. unfold main.
  apply emits_bind; [apply emits_pure|]. intros w0 args Hargs. simpl in Hargs.
  apply emits_bind; [apply emits_emit, Hother; split; discriminate|]. intros _ _ _.
  apply emits_bind; [apply emits_call; intros r; apply Hinit, Hargs|].
  intros w1 d _.
  apply emits_try_except.
  - unfold dispatch.
    case_bool_decide as Hd.
    { unfold getattr. destruct (words args); [|repeat emits_step].
      destruct (accent args) as [a|] eqn:Ha; [|repeat emits_step].
      apply emits_bind; [apply emits_ret|]. intros _ ? [= <-].
      apply emits_bind; [apply emits_ret|]. intros _ ? [= <-].
      apply process_words_emits; [intros r; apply Hinit, Hargs| |].
      - intros Hne. eapply Hacc; eauto.
      - intros ev H1 H2. apply Hother. split; assumption. }
    case_bool_decide.
    { unfold getattr. destruct (words args); repeat emits_step.
      apply show_cache_info_emits, Hother. }
    case_bool_decide.
    { unfold getattr. destruct (words args); repeat emits_step.
      apply clear_cache_emits, Hother. }
    unfold logging_error. repeat emits_step. apply Hother; split; discriminate.
  - intros e h Hh. unfold main_handler in Hh. handler_cases Hh.
    unfold logging_error. repeat emits_step.
    apply Hother; split; discriminate.
Qed.

(** [main], step by step. *)
Lemma main_unfold argv w :
  main argv w =
  match parse_args argv with
  | Raise e => Run (Raise e) w []
  | Ret args =>
      let config := make_config args in
      let level := if verbose args then DEBUG else INFO in
      match dl_init config w with
      | (Raise e, w1) =>
          Run (Raise e) w1 [EvBasicConfig level; EvInit config (Raise e)]
      | (Ret d, w1) =>
          let r := try_except (dispatch args config d) main_handler w1 in
          Run (result r) (final r)
            (EvBasicConfig level :: EvInit config (Ret tt) :: trace r)
      end
  end.
Proof.
  unfold main, bind, setup_logging, emit, GooglePronunciationDownloader, call.
  cbn [result final trace].
  destruct (parse_args argv) as [args|e]; [|reflexivity].
  cbn [result final trace].
  destruct (dl_init (make_config args) w) as [[d|e] w1]; reflexivity.
Qed.

(** C5.  The configuration built at lines 157-162 has [use_cache] set exactly
    when [--no-cache] is absent and [force_download] set exactly when
    [--force-download] is given; it is the argument of the constructor call
    of line 164, and every downloader constructed during the run (the second
    one is built by [process_words]) receives this same value. *)
Theorem config_reflects_flags argv ns w :
  parse_args argv = Ret ns ->
  let config := make_config ns in
  use_cache config = negb (bool_decide (OptNoCache ∈ globals argv)) /\
  force_download config = bool_decide (OptForceDownload ∈ globals argv) /\
  (exists r rest,
     trace (main argv w) =
     EvBasicConfig (if verbose ns then DEBUG else INFO) :: EvInit config r :: rest) /\
  (forall cfg r, EvInit cfg r ∈ trace (main argv w) -> cfg = config).
Proof.
  intros Hp config.
  pose proof (parse_args_fields _ _ Hp) as (_ & _ & Hn & Hf & _).
  split; [simpl; congruence|]. split; [simpl; congruence|]. split.
  - rewrite main_unfold, Hp. cbv zeta. fold config.
    destruct (dl_init config w) as [[d|e] w1]; cbn [trace]; eauto.
  - intros cfg r Hin.
    assert (emits (fun ev => forall c r, ev = EvInit c r -> c = config) (main argv))
      as Hemits.
    { apply main_emits.
      - intros ns' r' Hp' c r0 [= <- _]. unfold config. congruence.
      - intros; discriminate.
      - intros ev [H1 _] c r0 ->. destruct (H1 c r0 eq_refl). }
    specialize (Hemits w). rewrite Forall_forall in Hemits.
    eapply Hemits; [exact Hin|reflexivity].
Qed.

(** The accent of a parsed [download] command is one of the three choices:
    the conversion at line 100 is reached with ["gb"] or ["us"] only. *)
Lemma download_accent_choice argv ns :
  parse_args argv = Ret ns -> command ns = Some "download" ->
  exists a, accent ns = Some a /\
    (a = "all" \/ AccentType_of a = Ret GB \/ AccentType_of a = Ret US).
Proof.
  intros (_ & _ & _ & _ & H)%parse_args_fields Hc.
  destruct (H _ Hc) as (_ & Ha). destruct (Ha eq_refl) as (a & -> & Hin).
  exists a. split; [reflexivity|].
  unfold accent_choices in Hin. rewrite !elem_of_cons in Hin.
  destruct Hin as [->| [->| [->|Hin]]]; auto. inversion Hin.
Qed.

(** C10.  In every run of [main], each application of [AccentType] is to the
    string ["gb"] or ["us"], and it returns a member of the enumeration: the
    parser accepts only the choices gb, us and all, and ["all"] goes to
    [download_all_accents]. *)
Theorem accent_conversion_safe argv w s r :
  EvAccentType s r ∈ trace (main argv w) ->
  (s = "gb" \/ s = "us") /\ exists a, r = Ret a.
Proof.
  intros Hin.
  assert (emits
    (fun ev => forall s r, ev = EvAccentType s r ->
                 (s = "gb" \/ s = "us") /\ exists a, r = Ret a) (main argv)) as Hemits;
    [apply main_emits|
     specialize (Hemits w); rewrite Forall_forall in Hemits;
     eapply Hemits; [exact Hin|reflexivity]].
  - intros; discriminate.
  - intros ns a Hp Hc Ha Hne s0 r0 [= <- <-].
    destruct (download_accent_choice _ _ Hp Hc) as (a' & Ha' & Hcase).
    assert (a' = a) as -> by congruence.
    destruct Hcase as [->|[H|H]]; [congruence| |].
    + rewrite H. split; [|eauto]. unfold AccentType_of in H.
      destruct (String.eqb a "gb") eqn:E; [apply String.eqb_eq in E; auto|].
      destruct (String.eqb a "us"); discriminate.
    + rewrite H. split; [|eauto]. unfold AccentType_of in H.
      destruct (String.eqb a "gb") eqn:E; [discriminate|].
      destruct (String.eqb a "us") eqn:E'; [apply String.eqb_eq in E'; auto|discriminate].
  - intros ev [_ H2] s0 r0 ->. destruct (H2 s0 r0 eq_refl).
Qed.

End CLIFacts.

(** ** The download command *)

Section Download.
Context {World : Type} {api : DownloaderAPI World} {lib : PyLib}.

Lemma word_outcomes_app tr1 tr2 :
  word_outcomes (tr1 ++ tr2) = (word_outcomes tr1 ++ word_outcomes tr2)%list.
Proof. apply omap_app. Qed.

Lemma only_errors_app tr1 tr2 :
  only_errors (tr1 ++ tr2) = only_errors tr1 && only_errors tr2.
Proof. apply forallb_app. Qed.

(** One iteration of the loop, in terms of what lines 97-101 did. *)
Lemma process_word_run d a success word w :
  process_word d a success word w =
  let f := fetch_paths d a word w in
  if word_failed (result f) then
    Run (Ret false) (final f)
      (trace f ++ [EvLogError (failure_message word (result f))])
  else
    Run (match result f with Ret _ => Ret success | Raise e => Raise e end)
      (final f) (trace f).
Proof.
  unfold process_word, try_except, bind, word_handler.
  destruct (fetch_paths d a word w) as [[[|p ps]|e] w' tr]; cbn.
  - reflexivity.
  - rewrite app_nil_r. reflexivity.
  - destruct e; reflexivity.
Qed.

(** No [Exception] leaves an iteration: what the two [except] clauses let
    through is [SystemExit] or [KeyboardInterrupt]. *)
Lemma process_word_catches d a success word w e :
  result (process_word d a success word w) = Raise e -> is_Exception e = false.
Proof.
  rewrite process_word_run. cbv zeta.
  destruct (fetch_paths d a word w) as [[[|p ps]|e'] w' tr]; cbn; try discriminate.
  destruct (is_Exception e') eqn:He; cbn; [discriminate|].
  intros [= <-]. exact He.
Qed.

Lemma fetch_paths_all d word w :
  fetch_paths d "all" word w =
  let '(r, w') := dl_download_all_accents d word w in
  Run r w' [EvDownloadAll word r].
Proof. reflexivity. Qed.

Lemma fetch_paths_one d a acc word w :
  a <> "all" -> AccentType_of a = Ret acc ->
  fetch_paths d a word w =
  let '(r, w') := dl_download_pronunciation d word acc w in
  Run (match r with
       | Ret (Some p) => Ret [p]
       | Ret None => Ret []
       | Raise e => Raise e
       end) w' [EvAccentType a (Ret acc); EvDownloadOne word acc r].
Proof.
  intros Hne Hacc. unfold fetch_paths.
  destruct (String.eqb a "all") eqn:E; [apply String.eqb_eq in E; contradiction|].
  unfold bind, AccentType_call, download_pronunciation, call. rewrite Hacc.
  cbn [result final trace].
  destruct (dl_download_pronunciation d word acc w) as [[[p|]|e] w']; reflexivity.
Qed.

(** One iteration: exactly one download is made for the word; if it produced
    a file the flag is kept, otherwise (barring [SystemExit] and
    [KeyboardInterrupt]) the iteration ends normally with the flag cleared. *)
Lemma process_word_outcome d a success word w :
  valid_accent a ->
  let r := process_word d a success word w in
  exists b, word_outcomes (trace r) = [(word, b)] /\
    (b = true -> result r = Ret success) /\
    (only_errors (trace r) = true -> result r = Ret (success && b)).
Proof.
  intros Hv. cbv zeta. rewrite process_word_run. cbv zeta.
  destruct (decide (a = "all")) as [->|Hne].
  - rewrite fetch_paths_all.
    destruct (dl_download_all_accents d word w) as [[[|p ps]|e] w'];
      try destruct e; cbn; eexists; (split; [reflexivity|]);
      rewrite ?andb_true_r, ?andb_false_r; split; congruence.
  - destruct Hv as [->|[acc Hacc]]; [contradiction|].
    rewrite (fetch_paths_one _ _ _ _ _ Hne Hacc).
    destruct (dl_download_pronunciation d word acc w) as [[[p|]|e] w'];
      try destruct e; cbn; eexists; (split; [reflexivity|]);
      rewrite ?andb_true_r, ?andb_false_r; split; congruence.
Qed.

(** The loop of lines 95-112. *)
Lemma process_loop_outcome d a :
  valid_accent a ->
  forall ws success w,
  let r := for_in ws (process_word d a) success w in
  (every_word_produced ws (trace r) -> result r = Ret success) /\
  (only_errors (trace r) = true ->
     exists b, result r = Ret b /\
       (b = true -> success = true /\ every_word_produced ws (trace r))).
Proof.
  intros Hv. unfold every_word_produced.
  induction ws as [|x xs IH]; intros success w; cbn [for_in].
  - split; [reflexivity|]. intros _. exists success. auto.
  - destruct (process_word_outcome d a success x w Hv) as (b & Hout & Hgood & Herr).
    unfold bind.
    destruct (process_word d a success x w) as [[s1|e] w1 t1];
      cbn [result final trace] in *.
    + specialize (IH s1 w1). cbv zeta in IH. destruct IH as [IH1 IH2].
      destruct (for_in xs (process_word d a) s1 w1) as [r2 w2 t2];
        cbn [result final trace] in *.
      rewrite word_outcomes_app, only_errors_app, Hout. cbn [app map]. split.
      * intros [= -> Hrest]. specialize (Hgood eq_refl) as [= ->]. auto.
      * intros [H1 H2]%andb_true_iff.
        specialize (Herr H1) as [= ->].
        destruct (IH2 H2) as (b2 & -> & Hb2). exists b2. split; [reflexivity|].
        intros ->. destruct (Hb2 eq_refl) as [[-> ->]%andb_true_iff ->]. auto.
    + rewrite Hout. cbn [map]. split.
      * intros [= -> _]. specialize (Hgood eq_refl). discriminate.
      * intros H. specialize (Herr H). discriminate.
Qed.

Lemma process_words_unfold ws config a w :
  process_words ws config a w =
  match dl_init config w with
  | (Raise e, w0) => Run (Raise e) w0 [EvInit config (Raise e)]
  | (Ret d, w0) =>
      let r := for_in ws (process_word d a) true w0 in
      Run (match result r with
           | Ret success => Ret (if success then 0 else 1)%Z
           | Raise e => Raise e
           end) (final r) (EvInit config (Ret tt) :: trace r)
  end.
Proof.
  unfold process_words, bind, GooglePronunciationDownloader, call.
  destruct (dl_init config w) as [[d|e] w0]; cbn [result final trace]; [|reflexivity].
  destruct (for_in ws (process_word d a) true w0) as [[s|e] w1 t1];
    cbn [result final trace]; rewrite ?app_nil_r; reflexivity.
Qed.

Lemma process_words_outcome ws config a w :
  valid_accent a -> ws <> [] ->
  let r := process_words ws config a w in
  (every_word_produced ws (trace r) -> result r = Ret 0%Z) /\
  (~ every_word_produced ws (trace r) -> only_errors (trace r) = true ->
     result r = Ret 1%Z \/ exists e, result r = Raise e /\ is_Exception e = true).
Proof.
  intros Hv Hne. cbv zeta. rewrite process_words_unfold.
  destruct (dl_init config w) as [[d|e] w0]; cbn [result final trace].
  - destruct (process_loop_outcome d a Hv ws true w0) as [H1 H2].
    destruct (for_in ws (process_word d a) true w0) as [r1 w1 t1];
      cbn [result final trace] in *.
    unfold every_word_produced in *. cbn. split.
    + intros H. rewrite (H1 H). reflexivity.
    + intros Hnot H. destruct (H2 H) as (b & -> & Hb).
      destruct b; [destruct (Hb eq_refl) as [_ Hall]; contradiction|auto].
  - unfold every_word_produced. cbn. split.
    + destruct ws; [contradiction|discriminate].
    + intros _ H. rewrite andb_true_r in H. eauto.
Qed.

(** The [download] branch of the dispatch. *)
Lemma dispatch_download args config d ws a w :
  command args = Some "download" -> words args = Some ws -> accent args = Some a ->
  dispatch args config d w = process_words ws config a w.
Proof.
  intros Hc Hw Ha. unfold dispatch. rewrite Hc, Hw, Ha.
  rewrite bool_decide_eq_true_2 by reflexivity.
  unfold getattr, bind, ret. cbn [result final trace].
  destruct (process_words ws config a w) as [[c|e] w1 t1]; reflexivity.
Qed.

(** C1.  For the [download] command the exit status of the process is 0 when
    every requested word produced at least one pronunciation file, and 1
    when some word did not, be it that its download returned nothing or that
    it raised an error. *)
Theorem download_exit_status argv ns ws w :
  parse_args argv = Ret ns ->
  command ns = Some "download" ->
  words ns = Some ws ->
  let '(status, _, tr) := script argv w in
  (every_word_produced ws tr -> status = Exited 0) /\
  (~ every_word_produced ws tr -> only_errors tr = true -> status = Exited 1).
Proof.
  intros Hp Hc Hw. unfold script. rewrite main_unfold, Hp. cbv zeta.
  destruct (parse_args_download_words _ _ Hp Hc) as (ws' & Hw' & Hne).
  assert (ws' = ws) as -> by congruence.
  destruct (download_accent_choice _ _ Hp Hc) as (a & Ha & Hcase).
  assert (valid_accent a) as Hv by (unfold valid_accent; intuition eauto).
  destruct (dl_init (make_config ns) w) as [[d|e] w0]; cbn [result final trace].
  - unfold try_except.
    rewrite (dispatch_download _ _ _ _ _ _ Hc Hw Ha).
    destruct (process_words_outcome ws (make_config ns) a w0 Hv Hne) as [H1 H2].
    destruct (process_words ws (make_config ns) a w0) as [[c|e] w1 t1];
      cbn [result final trace] in *.
    + unfold every_word_produced in *. cbn. split.
      * intros H. specialize (H1 H) as [= ->]. reflexivity.
      * intros Hnot H. destruct (H2 Hnot H) as [[= ->]|(e & [=] & _)]. reflexivity.
    + unfold main_handler.
      destruct (is_Exception e) eqn:He; cbn [result final trace].
      * unfold every_word_produced in *. cbn.
        rewrite word_outcomes_app, app_nil_r. split; [|reflexivity].
        intros H. specialize (H1 H). discriminate.
      * unfold every_word_produced in *. cbn. split.
        -- intros H. specialize (H1 H). discriminate.
        -- intros Hnot H. destruct (H2 Hnot H) as [[=]|(e' & [= <-] & He')].
           congruence.
  - unfold every_word_produced. cbn. split.
    + destruct ws; [contradiction|discriminate].
    + intros _ H. rewrite andb_true_r in H. destruct e; try discriminate; reflexivity.
Qed.

(** Barring [SystemExit] and [KeyboardInterrupt], the loop makes one download
    for each word, in order. *)
Lemma process_loop_words d a :
  valid_accent a ->
  forall ws success w,
  let r := for_in ws (process_word d a) success w in
  only_errors (trace r) = true -> map fst (word_outcomes (trace r)) = ws.
Proof.
  intros Hv. induction ws as [|x xs IH]; intros success w; cbn [for_in].
  - reflexivity.
  - destruct (process_word_outcome d a success x w Hv) as (b & Hout & _ & Herr).
    unfold bind.
    destruct (process_word d a success x w) as [[s1|e] w1 t1];
      cbn [result final trace] in *.
    + specialize (IH s1 w1). cbv zeta in IH.
      rewrite word_outcomes_app, only_errors_app, Hout.
      intros [_ H2]%andb_true_iff. cbn. f_equal. auto.
    + intros H. specialize (Herr H). discriminate.
Qed.

(** C2.  A word that fails (its download raises [DownloadError],
    [CacheError] or any other [Exception], or returns no path) does not end
    the loop: the failure is logged right after the events of that word, and
    the words that follow are processed from the world the failed word left.
    Here [pre] are the words before the failing [word], [post] those after. *)
Theorem word_failure_does_not_abort config a pre word post w d w0 b :
  dl_init config w = (Ret d, w0) ->
  let r_pre := for_in pre (process_word d a) true w0 in
  result r_pre = Ret b ->
  let f := fetch_paths d a word (final r_pre) in
  word_failed (result f) = true ->
  let r_post := for_in post (process_word d a) false (final f) in
  let r := process_words (pre ++ word :: post) config a w in
  trace r =
    (EvInit config (Ret tt) :: trace r_pre ++ trace f ++
     [EvLogError (failure_message word (result f))] ++ trace r_post)%list /\
  final r = final r_post /\
  result r = match result r_post with
             | Ret _ => Ret 1%Z
             | Raise e => Raise e
             end /\
  (valid_accent a -> only_errors (trace r_post) = true ->
     map fst (word_outcomes (trace r_post)) = post /\ result r = Ret 1%Z).
Proof.
  intros Hinit r_pre Hpre f Hfail r_post r.
  assert (result r_post = Ret false \/ exists e, result r_post = Raise e) as Hpost.
  { clear. subst r_post. generalize (final f). clear.
    induction post as [|x xs IH]; intros w1; cbn [for_in]; [left; reflexivity|].
    unfold bind. rewrite process_word_run. cbv zeta.
    destruct (word_failed (result (fetch_paths d a x w1))); cbn [result final trace].
    - destruct (IH (final (fetch_paths d a x w1))) as [->|[e ->]]; eauto.
    - destruct (result (fetch_paths d a x w1)) as [?|e]; cbn [result]; [|eauto].
      destruct (IH (final (fetch_paths d a x w1))) as [->|[e ->]]; eauto. }
  subst r. rewrite process_words_unfold, Hinit. cbv zeta.
  rewrite for_in_app. cbv zeta. fold r_pre. rewrite Hpre.
  rewrite for_in_cons, process_word_run. cbv zeta.
  fold f. rewrite Hfail. cbn [result final trace]. fold r_post.
  split; [rewrite <- !app_assoc; reflexivity|].
  split; [reflexivity|].
  split; [destruct Hpost as [->|[e ->]]; reflexivity|].
  intros Hv Herr. split.
  - apply (process_loop_words d a Hv post false (final f) Herr).
  - destruct (process_loop_outcome d a Hv post false (final f)) as [_ H2].
    destruct (H2 Herr) as (b2 & Hb2 & _). fold r_post in Hb2. rewrite Hb2.
    destruct Hpost as [H|[e H]]; rewrite H in Hb2; [|discriminate].
    injection Hb2 as <-. reflexivity.
Qed.

(** C3.  With accent ["all"], when [download_all_accents] returns a list of
    paths, the word is a failure exactly when that list is empty.  A
    non-empty list (some accent succeeded, whatever happened to the other)
    leaves the flag as it was, logs nothing and raises nothing; as the only
    word of a [download] command it gives exit code 0. *)
Theorem all_accents_partial_success d word success w paths w' :
  dl_download_all_accents d word w = (Ret paths, w') ->
  let r := process_word d "all" success word w in
  final r = w' /\
  (paths <> [] ->
     result r = Ret success /\ trace r = [EvDownloadAll word (Ret paths)]) /\
  (paths = [] ->
     result r = Ret false /\
     trace r = [EvDownloadAll word (Ret []);
                EvLogError ("No pronunciations downloaded for '" +:+ word +:+ "'")]) /\
  (forall config w0, dl_init config w0 = (Ret d, w) ->
     result (process_words [word] config "all" w0) =
     Ret (match paths with [] => 1 | _ :: _ => 0 end)%Z).
Proof.
  intros Hdl. cbv zeta.
  assert (process_word d "all" success word w =
          match paths with
          | [] => Run (Ret false) w'
                    [EvDownloadAll word (Ret []);
                     EvLogError ("No pronunciations downloaded for '" +:+ word +:+ "'")]
          | _ :: _ => Run (Ret success) w' [EvDownloadAll word (Ret paths)]
          end) as Hrun.
  { rewrite process_word_run, fetch_paths_all, Hdl. destruct paths; reflexivity. }
  repeat split.
  - rewrite Hrun. destruct paths; reflexivity.
  - rewrite Hrun. destruct paths; [contradiction|reflexivity].
  - rewrite Hrun. destruct paths; [contradiction|reflexivity].
  - subst paths. rewrite Hrun. reflexivity.
  - subst paths. rewrite Hrun. reflexivity.
  - intros config w0 Hinit. rewrite process_words_unfold, Hinit. cbv zeta.
    cbn [for_in]. unfold bind.
    assert (process_word d "all" true word w =
            match paths with
            | [] => Run (Ret false) w'
                      [EvDownloadAll word (Ret []);
                       EvLogError ("No pronunciations downloaded for '" +:+ word +:+ "'")]
            | _ :: _ => Run (Ret true) w' [EvDownloadAll word (Ret paths)]
            end) as ->.
    { rewrite process_word_run, fetch_paths_all, Hdl. destruct paths; reflexivity. }
    destruct paths; reflexivity.
Qed.

End Download.

(** ** The cache-info command and the top-level handler *)

Section CacheInfo.
Context {World : Type} {api : DownloaderAPI World} {lib : PyLib}.

Lemma show_cache_info_unfold d ws w :
  show_cache_info d ws w =
  cache_info_result (match ws with
                     | [] => show_all d w
                     | _ :: _ => for_in ws (show_word d) tt w
                     end).
Proof.
  unfold show_cache_info, cache_info_handler, cache_info_result, try_except, bind,
    logging_error, emit, ret.
  destruct ws as [|x xs].
  - destruct (show_all d w) as [[[]|e] w1 t1]; cbn [result final trace];
      rewrite ?app_nil_r; [reflexivity|].
    destruct (is_Exception e); reflexivity.
  - destruct (for_in (x :: xs) (show_word d) tt w) as [[[]|e] w1 t1];
      cbn [result final trace]; rewrite ?app_nil_r; [reflexivity|].
    destruct (is_Exception e); reflexivity.
Qed.

(** Lines 128-133. *)
Lemma show_all_run d w :
  show_all d w =
  match dl_get_cache_info d None w with
  | (Ret [], w') =>
      Run (Ret tt) w' [EvGetCacheInfo None (Ret []); EvPrint "No cached files found"]
  | (Ret (kv :: info), w') =>
      Run (Ret tt) w'
        [EvGetCacheInfo None (Ret (kv :: info));
         EvPrint (nl +:+ "Cache information:");
         EvPrint (json_dumps (JDict (kv :: info)) 2)]
  | (Raise e, w') => Run (Raise e) w' [EvGetCacheInfo None (Raise e)]
  end.
Proof.
  unfold show_all, bind, get_cache_info, call, print, emit.
  destruct (dl_get_cache_info d None w) as [[[|kv info]|e] w']; reflexivity.
Qed.

(** Lines 121-126 for a word that has no entry. *)
Lemma show_word_missing d word w w' :
  dl_get_cache_info d (Some word) w = (Ret [], w') ->
  show_word d tt word w =
  Run (Ret tt) w'
    [EvGetCacheInfo (Some word) (Ret []);
     EvPrint ("No cache info found for '" +:+ word +:+ "'")].
Proof.
  intros H. unfold show_word, bind, get_cache_info, call, print, emit.
  rewrite H. reflexivity.
Qed.

(** The [cache-info] branch of the dispatch. *)
Lemma dispatch_cache_info args config d ws w :
  command args = Some "cache-info" -> words args = Some ws ->
  dispatch args config d w = show_cache_info d ws w.
Proof.
  intros Hc Hw. unfold dispatch. rewrite Hc, Hw.
  rewrite bool_decide_eq_false_2 by discriminate.
  rewrite bool_decide_eq_true_2 by reflexivity.
  unfold getattr, bind, ret. cbn [result final trace].
  destruct (show_cache_info d ws w) as [[c|e] w1 t1]; reflexivity.
Qed.

(** C6 (as amended).  With no words, [cache-info] asks the downloader for the
    information on all entries.  When the request returns a mapping, the
    mapping is printed as JSON (or the line "No cached files found" when it
    is empty) and the exit code is 0; when the request raises an error, the
    error is logged and the exit code is 1. *)
Theorem cache_info_all_entries argv ns w d w1 :
  parse_args argv = Ret ns ->
  command ns = Some "cache-info" ->
  words ns = Some [] ->
  dl_init (make_config ns) w = (Ret d, w1) ->
  let level := if verbose ns then DEBUG else INFO in
  let started := [EvBasicConfig level; EvInit (make_config ns) (Ret tt)] in
  main argv w =
  match dl_get_cache_info d None w1 with
  | (Ret [], w2) =>
      Run (Ret 0%Z) w2
        (started ++ [EvGetCacheInfo None (Ret []); EvPrint "No cached files found"])
  | (Ret (kv :: info), w2) =>
      Run (Ret 0%Z) w2
        (started ++ [EvGetCacheInfo None (Ret (kv :: info));
                     EvPrint (nl +:+ "Cache information:");
                     EvPrint (json_dumps (JDict (kv :: info)) 2)])
  | (Raise e, w2) =>
      if is_Exception e then
        Run (Ret 1%Z) w2
          (started ++ [EvGetCacheInfo None (Raise e);
                       EvLogError ("Error getting cache info: " +:+ exn_str e)])
      else Run (Raise e) w2 (started ++ [EvGetCacheInfo None (Raise e)])
  end.
Proof.
  intros Hp Hc Hw Hinit. cbv zeta. rewrite main_unfold, Hp. cbv zeta. rewrite Hinit.
  unfold try_except. rewrite (dispatch_cache_info _ _ _ _ _ Hc Hw).
  rewrite show_cache_info_unfold, show_all_run. unfold cache_info_result, main_handler.
  destruct (dl_get_cache_info d None w1) as [[[|kv info]|e] w2];
    cbn [result final trace]; try reflexivity.
  destruct (is_Exception e) eqn:He; cbn [result final trace]; [reflexivity|].
  rewrite He. reflexivity.
Qed.

(** C9.  A queried word without a cache entry is not a failure: the line
    "No cache info found for '...'" is printed for it, the loop goes on with
    the words that follow, and the command returns 0 when they are handled.
    A result of 1 comes only from an exception raised for one of them,
    which is logged; never from the missing entry. *)
Theorem cache_info_missing_word d pre word post w w' :
  let r_pre := for_in pre (show_word d) tt w in
  result r_pre = Ret tt ->
  dl_get_cache_info d (Some word) (final r_pre) = (Ret [], w') ->
  let r_post := for_in post (show_word d) tt w' in
  let r := show_cache_info d (pre ++ word :: post) w in
  r = cache_info_result
        (Run (result r_post) (final r_post)
           (trace r_pre ++
            [EvGetCacheInfo (Some word) (Ret []);
             EvPrint ("No cache info found for '" +:+ word +:+ "'")] ++
            trace r_post)%list) /\
  (result r_post = Ret tt -> result r = Ret 0%Z) /\
  (forall e, result r_post = Raise e -> is_Exception e = true ->
     result r = Ret 1%Z /\
     last (trace r) = Some (EvLogError ("Error getting cache info: " +:+ exn_str e))).
Proof.
  intros r_pre Hpre Hget r_post r.
  assert (r = cache_info_result
        (Run (result r_post) (final r_post)
           (trace r_pre ++
            [EvGetCacheInfo (Some word) (Ret []);
             EvPrint ("No cache info found for '" +:+ word +:+ "'")] ++
            trace r_post)%list)) as Hr.
  { subst r. rewrite show_cache_info_unfold.
    assert (for_in (pre ++ word :: post) (show_word d) tt w =
            Run (result r_post) (final r_post)
              (trace r_pre ++
               [EvGetCacheInfo (Some word) (Ret []);
                EvPrint ("No cache info found for '" +:+ word +:+ "'")] ++
               trace r_post)%list) as <-.
    { rewrite for_in_app. cbv zeta. fold r_pre. rewrite Hpre.
      rewrite for_in_cons. cbv zeta. rewrite (show_word_missing _ _ _ _ Hget).
      cbn [result final trace]. fold r_post. reflexivity. }
    destruct pre; reflexivity. }
  split; [exact Hr|]. rewrite Hr. unfold cache_info_result. cbn [result final trace].
  split.
  - intros ->. reflexivity.
  - intros e -> ->. cbn [result trace]. split; [reflexivity|].
    rewrite !app_assoc. apply last_snoc.
Qed.

(** C7.  An exception (an instance of [Exception]) that leaves a command
    handler is caught by the [try] of [main]: it is logged as a fatal error
    and [main] returns 1, which is the exit status of the process. *)
Theorem main_catches_escaping_exception argv ns w d w1 e :
  parse_args argv = Ret ns ->
  dl_init (make_config ns) w = (Ret d, w1) ->
  let h := dispatch ns (make_config ns) d w1 in
  result h = Raise e ->
  is_Exception e = true ->
  let r := main argv w in
  result r = Ret 1%Z /\
  exit_status_of (result r) = Exited 1 /\
  final r = final h /\
  trace r =
    ([EvBasicConfig (if verbose ns then DEBUG else INFO);
      EvInit (make_config ns) (Ret tt)] ++
     trace h ++ [EvLogError ("Fatal error: " +:+ exn_str e)])%list.
Proof.
  intros Hp Hinit h Hh He r. subst r. rewrite main_unfold, Hp. cbv zeta.
  rewrite Hinit. unfold try_except. fold h. rewrite Hh. unfold main_handler.
  rewrite He. cbn. repeat split; reflexivity.
Qed.

End CacheInfo.
(** ** The invariant of the cache index *)

Section CacheIndexFacts.
Import CacheIndex.


Lemma perform_all_outputDir ws : forall c, outputDir (perform_all c ws) = outputDir c.
Proof.
  induction ws as [|w ws IH]; intros c; [reflexivity|].
  change (perform_all c (w :: ws)) with (perform_all (perform c w) ws).
  rewrite IH. destruct w; reflexivity.
Qed.




(** *** Every entry has its file, at every point *)










(** *** No empty file, when no empty payload is stored *)







(** *** The invariant of section 3, between complete operations *)





(** The state after the first [n] writes of an operation begun in the state
    of a history is the state of the history with that operation stopped
    there. *)
Lemma store_point c history w a audio t url n :
  let c1 := run_ops c history in
  perform_all c1 (take n (store_writes c1 w a audio t url)) =
  run_ops c (history ++ [(OpStore w a audio t url, Some n)])%list.
Proof.
  intros c1. unfold run_ops. rewrite fold_left_app. simpl. unfold store.
  destruct (stops_early _ _); reflexivity.
Qed.

Lemma clear_point c history w n :
  let c1 := run_ops c history in
  perform_all c1 (take n (clear_writes c1 w)) =
  run_ops c (history ++ [(OpClear w, Some n)])%list.
Proof.
  intros c1. unfold run_ops. rewrite fold_left_app. simpl. unfold clear.
  destruct (stops_early _ _); reflexivity.
Qed.


End CacheIndexFacts.

(** ** The theorems at work on the test double *)

Lemma download_exit_status_witness :
  (script argv_hello demo_world).1.1 = Exited 0 /\
  (script argv_hello_cat_us demo_world).1.1 = Exited 1.
Proof.
  split.
  - pose proof (download_exit_status argv_hello (download_ns ["hello"] "all" false)
                  ["hello"] demo_world eq_refl eq_refl eq_refl) as H.
    vm_compute in H. destruct H as [H _]. vm_compute. apply H. reflexivity.
  - pose proof (download_exit_status argv_hello_cat_us
                  (download_ns ["hello"; "cat"] "us" false)
                  ["hello"; "cat"] demo_world eq_refl eq_refl eq_refl) as H.
    vm_compute in H. destruct H as [_ H]. vm_compute. apply H; [discriminate|reflexivity].
Defined.

Lemma word_failure_does_not_abort_witness :
  result (process_words (["hello"] ++ "cat" :: ["hello"]) default_config "us"
            fragile_world) = Ret 1%Z.
Proof.
  destruct (word_failure_does_not_abort (api := mock_api) default_config "us" ["hello"] "cat" ["hello"]
              fragile_world default_config fragile_world_0 true
              eq_refl eq_refl eq_refl) as (_ & _ & _ & H).
  apply H.
  - right. exists US. reflexivity.
  - reflexivity.
Defined.

Lemma all_accents_partial_success_witness :
  result (process_word (api := mock_api) default_config "all" true "cat" demo_world) = Ret true /\
  trace (process_word (api := mock_api) default_config "all" true "cat" demo_world) =
    [EvDownloadAll "cat" (Ret [PyPath "pronunciations/cat_gb.mp3"])].
Proof.
  destruct (all_accents_partial_success (api := mock_api) default_config "cat" true demo_world
              [PyPath "pronunciations/cat_gb.mp3"] demo_world eq_refl)
    as (_ & H & _).
  apply H. discriminate.
Defined.

Lemma config_reflects_flags_witness :
  use_cache (make_config (download_ns ["hello"] "all" true)) = false /\
  forall cfg r, EvInit cfg r ∈ trace (main argv_no_cache demo_world) ->
    cfg = make_config (download_ns ["hello"] "all" true).
Proof.
  destruct (config_reflects_flags argv_no_cache (download_ns ["hello"] "all" true)
              demo_world eq_refl) as (H1 & _ & _ & H4).
  split; [exact H1|exact H4].
Defined.

Lemma cache_info_all_entries_witness :
  result (main argv_cache_info demo_world) = Ret 0%Z.
Proof.
  rewrite (cache_info_all_entries (api := mock_api) argv_cache_info (cache_info_ns []) demo_world
             default_config demo_world_1 eq_refl eq_refl eq_refl eq_refl).
  reflexivity.
Defined.

(** C6, the claim as it is written: with no words the command returns 0.
    Here the metadata cannot be read: nothing is printed and the exit status
    is 1. *)
Lemma cache_info_all_counterexample :
  let '(status, _, tr) := script argv_cache_info damaged_world in
  status = Exited 1 /\ status <> Exited 0 /\
  tr = [EvBasicConfig INFO; EvInit default_config (Ret tt);
        EvGetCacheInfo None (Raise (CacheError "Corrupt cache metadata"));
        EvLogError "Error getting cache info: Corrupt cache metadata"].
Proof. vm_compute. split; [reflexivity|]. split; [discriminate|reflexivity]. Qed.

Lemma main_catches_escaping_exception_witness :
  result (main argv_hello fragile_world) = Ret 1%Z /\
  exit_status_of (result (main argv_hello fragile_world)) = Exited 1.
Proof.
  destruct (main_catches_escaping_exception (api := mock_api) argv_hello (download_ns ["hello"] "all" false)
              fragile_world default_config fragile_world_0
              (OtherException "OSError" "cannot create the output directory")
              eq_refl eq_refl eq_refl eq_refl) as (H1 & H2 & _).
  split; [exact H1|exact H2].
Defined.

Lemma parse_args_defaults_witness :
  output_dir (download_ns ["hello"] "all" true) = PyPath "pronunciations" /\
  timeout (download_ns ["hello"] "all" true) = 10%Z.
Proof.
  destruct (parse_args_defaults argv_no_cache (download_ns ["hello"] "all" true) eq_refl)
    as [H1 H2].
  split; [apply H1|apply H2]; intros v Hin; simpl in Hin;
    apply list_elem_of_singleton in Hin; discriminate Hin.
Defined.

Lemma cache_info_missing_word_witness :
  result (show_cache_info (api := mock_api) default_config ([] ++ "cat" :: ["hello"]) demo_world_1) = Ret 0%Z.
Proof.
  destruct (cache_info_missing_word (api := mock_api) default_config [] "cat" ["hello"] demo_world_1
              demo_world_1 eq_refl eq_refl) as (_ & H & _).
  apply H. reflexivity.
Defined.

Lemma accent_conversion_safe_witness :
  EvAccentType "us" (Ret US) ∈ trace (main argv_hello_cat_us demo_world) /\
  ("us" = "gb" \/ "us" = "us") /\ exists a, Ret US = Ret a.
Proof.
  assert (EvAccentType "us" (Ret US) ∈ trace (main argv_hello_cat_us demo_world)) as Hin.
  { apply list_elem_of_In. vm_compute. tauto. }
  split; [exact Hin|].
  exact (accent_conversion_safe argv_hello_cat_us demo_world "us" (Ret US) Hin).
Defined.



(** * Further properties of the command line *)

(** ** [parse_args] *)

Section ParseMore.
Context {lib : PyLib}.

(** What one accepted top-level option is, and what it leaves. *)
Lemma global_action_accepted ns ex o ns' ex' :
  global_action (ns, ex) o = Ret (ns', ex') ->
  o <> OptHelp /\ o <> OptInvalid /\
  (forall v, o = OptTimeout v -> py_int v = Some (timeout ns')) /\
  (forall v, o = OptOutputDir v -> output_dir ns' = PyPath v) /\
  (is_OptTimeout o = false -> timeout ns' = timeout ns) /\
  (is_OptOutputDir o = false -> output_dir ns' = output_dir ns) /\
  verbose ns' = (verbose ns || bool_decide (o = OptVerbose)) /\
  ex' = (ex || is_OptUnknown o).
Proof.
  destruct o; simpl; try discriminate;
    try (destruct (py_int value) eqn:Hint; try discriminate);
    intros [= <- <-]; simpl;
    rewrite ?orb_false_r, ?orb_true_r;
    repeat split; try congruence; try discriminate.
Qed.

Lemma global_actions_accepted os : forall ns ex ns' ex',
  global_actions (ns, ex) os = Ret (ns', ex') ->
  (OptHelp ∉ os) /\ (OptInvalid ∉ os) /\
  (forall v, OptTimeout v ∈ os -> is_Some (py_int v)) /\
  output_dir ns' = default (output_dir ns) (PyPath <$> last (output_dir_values os)) /\
  match last (timeout_values os) with
  | None => timeout ns' = timeout ns
  | Some v => py_int v = Some (timeout ns')
  end /\
  verbose ns' = (verbose ns || bool_decide (OptVerbose ∈ os)) /\
  ex' = (ex || existsb is_OptUnknown os).
Proof.
  induction os as [|o os IH]; intros ns ex ns' ex'; cbn [global_actions].
  - intros [= <- <-]. rewrite !orb_false_r. simpl.
    repeat split; try reflexivity; try apply not_elem_of_nil.
    intros v Hin. apply elem_of_nil in Hin. destruct Hin.
  - destruct (global_action (ns, ex) o) as [[ns1 ex1]|e] eqn:Ho; [|intros; discriminate].
    intros Hos.
    apply global_action_accepted in Ho as (Hh & Hi & Ht & Hd & Ht' & Hd' & Hv & He).
    apply IH in Hos as (IHh & IHi & IHt & IHd & IHt' & IHv & IHe).
    split; [rewrite elem_of_cons; intros [?|?]; [congruence|contradiction]|].
    split; [rewrite elem_of_cons; intros [?|?]; [congruence|contradiction]|].
    split.
    { intros v [Hv'|Hv']%elem_of_cons; [|auto].
      rewrite (Ht v) by congruence. eauto. }
    split.
    { rewrite IHd. unfold output_dir_values. cbn [omap list_omap].
      destruct o; cbn; try (rewrite Hd' by reflexivity; reflexivity).
      rewrite last_cons. fold (output_dir_values os).
      destruct (last (output_dir_values os)); cbn; [reflexivity|].
      apply Hd. reflexivity. }
    split.
    { unfold timeout_values. cbn [omap list_omap].
      destruct o; cbn; fold (timeout_values os);
        try (destruct (last (timeout_values os));
             [exact IHt' | rewrite IHt'; apply Ht'; reflexivity]).
      rewrite last_cons.
      destruct (last (timeout_values os)); [exact IHt'|].
      rewrite IHt'. apply Ht. reflexivity. }
    split.
    { rewrite IHv, Hv, <- orb_assoc. f_equal.
      destruct (decide (o = OptVerbose)) as [->|Hne].
      - rewrite (bool_decide_eq_true_2 (OptVerbose ∈ OptVerbose :: os)) by left.
        rewrite bool_decide_eq_true_2 by reflexivity. reflexivity.
      - rewrite (bool_decide_eq_false_2 (o = OptVerbose)) by assumption. simpl.
        apply bool_decide_ext. rewrite elem_of_cons. intuition congruence. }
    rewrite IHe, He. cbn [existsb]. rewrite orb_assoc. reflexivity.
Qed.

(** What one accepted argument of a sub-command is, and what it leaves. *)
Lemma sub_action_accepted h st a st' :
  sub_action h st a = Ret st' ->
  a <> ArgHelp /\ a <> ArgInvalid /\
  (forall v, a = ArgAccent v -> h = true -> v ∈ accent_choices /\ sub_accent st' = v) /\
  (forall v, a = ArgAccent v -> h = false -> sub_extras st' = true) /\
  ((forall v, a <> ArgAccent v) -> sub_accent st' = sub_accent st) /\
  (h = false -> sub_accent st' = sub_accent st) /\
  (is_ArgUnknown a = true -> sub_extras st' = true) /\
  (sub_extras st = true -> sub_extras st' = true) /\
  (sub_extras st' = false ->
     words_list (sub_words st') =
     (words_list (sub_words st) ++
      match a with ArgWord w => [w] | _ => [] end)%list).
Proof.
  assert (forall w : words_state, words_list (close_words w) = (words_list w ++ [])%list)
    as Hclose by (intros []; simpl; rewrite ?app_nil_r; reflexivity).
  destruct a; simpl; try discriminate.
  - destruct (sub_words st) as [|ws|ws] eqn:Hw; intros [= <-]; simpl;
      repeat split; try congruence; try discriminate; auto.
  - destruct h.
    + case_bool_decide as Hin; [|discriminate]. intros [= <-]; simpl.
      repeat split; try congruence; try discriminate; auto.
      intros H; destruct (H value eq_refl).
    + intros [= <-]; simpl. repeat split; try congruence; try discriminate; auto.
  - intros [= <-]; simpl. repeat split; try congruence; try discriminate; auto.
Qed.

Lemma sub_actions_accepted h args : forall st st',
  sub_actions h st args = Ret st' ->
  (ArgHelp ∉ args) /\ (ArgInvalid ∉ args) /\
  (h = true -> forall v, ArgAccent v ∈ args -> v ∈ accent_choices) /\
  (h = true -> sub_accent st' = default (sub_accent st) (last (accent_values args))) /\
  (h = false -> sub_accent st' = sub_accent st) /\
  (sub_extras st = true -> sub_extras st' = true) /\
  (sub_extras st' = false ->
     (forall t, ArgUnknown t ∉ args) /\
     (h = false -> forall v, ArgAccent v ∉ args) /\
     words_list (sub_words st') = (words_list (sub_words st) ++ arg_words args)%list).
Proof.
  induction args as [|a args IH]; intros st st'; cbn [sub_actions].
  - intros [= <-]. simpl. rewrite app_nil_r.
    repeat split; intros; auto; try apply not_elem_of_nil;
      match goal with H : _ ∈ [] |- _ => apply elem_of_nil in H; destruct H end.
  - destruct (sub_action h st a) as [st1|e] eqn:Ha; [|intros; discriminate].
    intros Hs.
    apply sub_action_accepted in Ha
      as (Hh & Hi & Hacc & Hacc' & Hsame & Hsame' & Hunk & Hmono & Hwords).
    apply IH in Hs as (IHh & IHi & IHacc & IHlast & IHsame & IHmono & IHwords).
    split; [rewrite elem_of_cons; intros [?|?]; [congruence|contradiction]|].
    split; [rewrite elem_of_cons; intros [?|?]; [congruence|contradiction]|].
    split.
    { intros -> v [Hv|Hv]%elem_of_cons; [|auto].
      apply (Hacc v); congruence. }
    split.
    { intros ->. rewrite IHlast by reflexivity.
      unfold accent_values. cbn [omap list_omap].
      destruct a; cbn; fold (accent_values args);
        try (rewrite Hsame by discriminate; reflexivity).
      rewrite last_cons. destruct (last (accent_values args)); cbn; [reflexivity|].
      apply (Hacc value); reflexivity. }
    split; [intros ->; rewrite IHsame, Hsame' by reflexivity; reflexivity|].
    split; [auto|].
    intros Hfalse. destruct (IHwords Hfalse) as (IHu & IHa & IHw).
    assert (sub_extras st1 = false) as H1.
    { destruct (sub_extras st1) eqn:E; [|reflexivity].
      rewrite IHmono in Hfalse by reflexivity. discriminate. }
    split.
    { intros t [Ht|Ht]%elem_of_cons; [|exact (IHu t Ht)].
      rewrite Hunk in H1 by (subst a; reflexivity). discriminate. }
    split.
    { intros -> v [Hv|Hv]%elem_of_cons; [|exact (IHa eq_refl v Hv)].
      rewrite (Hacc' v) in H1 by congruence. discriminate. }
    rewrite IHw, (Hwords H1), <- app_assoc. f_equal.
    unfold arg_words. cbn [omap list_omap]. destruct a; reflexivity.
Qed.

(** The two stages of an accepted command line. *)
Lemma parse_args_inv argv ns :
  parse_args argv = Ret ns ->
  exists ns1,
    global_actions (default_Namespace, false) (globals argv) = Ret (ns1, false) /\
    match subcommand argv with
    | None => ns = ns1
    | Some (name, args) => parse_subcommand ns1 false name args = Ret (ns, false)
    end.
Proof.
  unfold parse_args.
  destruct (global_actions _ (globals argv)) as [[ns1 ex1]|e] eqn:Hg; [|discriminate].
  destruct (subcommand argv) as [[name args]|].
  - destruct (parse_subcommand ns1 ex1 name args) as [[ns2 ex2]|e] eqn:Hp; [|discriminate].
    destruct ex2; [discriminate|]. intros [= <-].
    assert (ex1 = false) as ->.
    { unfold parse_subcommand in Hp.
      destruct (String.eqb name "download").
      - destruct (sub_actions true _ args); [|discriminate].
        destruct (words_read _); [|discriminate].
        injection Hp as _ H. apply orb_false_iff in H as [H _]. exact H.
      - destruct (_ || _); [|discriminate].
        destruct (sub_actions false _ args); [|discriminate].
        injection Hp as _ H. apply orb_false_iff in H as [H _]. exact H. }
    eauto.
  - destruct ex1; [discriminate|]. intros [= <-]. eauto.
Qed.

Lemma parse_subcommand_inv ns1 name args ns :
  parse_subcommand ns1 false name args = Ret (ns, false) ->
  command ns = Some name /\
  output_dir ns = output_dir ns1 /\ timeout ns = timeout ns1 /\
  verbose ns = verbose ns1 /\
  exists st,
    sub_actions (String.eqb name "download") (mkSubState WNone "all" false) args = Ret st /\
    sub_extras st = false /\
    ((name = "download" /\ words_read (sub_words st) = words ns /\
      words ns <> None /\ accent ns = Some (sub_accent st)) \/
     ((name = "cache-info" \/ name = "clear-cache") /\
      words ns = Some (words_list (sub_words st)) /\ accent ns = None)).
Proof.
  unfold parse_subcommand.
  destruct (String.eqb name "download") eqn:Hd.
  - apply String.eqb_eq in Hd as ->.
    destruct (sub_actions true _ args) as [st|e] eqn:Hs; [|discriminate].
    destruct (words_read (sub_words st)) as [ws|] eqn:Hw; [|discriminate].
    intros [= <- Hex]. simpl. repeat split.
    exists st. repeat split; [exact Hex|]. left. rewrite Hw. repeat split. discriminate.
  - destruct (String.eqb name "cache-info" || String.eqb name "clear-cache") eqn:Hc;
      [|discriminate].
    destruct (sub_actions false _ args) as [st|e] eqn:Hs; [|discriminate].
    intros [= <- Hex]. simpl. repeat split.
    exists st. repeat split; [exact Hex|]. right. repeat split.
    + apply orb_true_iff in Hc as [H|H]; apply String.eqb_eq in H; auto.
    + destruct (sub_words st); reflexivity.
Qed.

(** X1.  In an accepted command line the last [-o/--output-dir] gives the
    output directory and the last [-t/--timeout] the timeout (the defaults
    when there is none); for [download] the last [-a/--accent] gives the
    accent, ["all"] when there is none. *)
Theorem parse_args_last_value_wins argv ns :
  parse_args argv = Ret ns ->
  output_dir ns =
    default (PyPath "pronunciations") (PyPath <$> last (output_dir_values (globals argv))) /\
  match last (timeout_values (globals argv)) with
  | None => timeout ns = 10%Z
  | Some v => py_int v = Some (timeout ns)
  end /\
  (forall args, subcommand argv = Some ("download", args) ->
     accent ns = Some (default "all" (last (accent_values args)))).
Proof.
  intros (ns1 & Hg & Hsub)%parse_args_inv.
  apply global_actions_accepted in Hg as (_ & _ & _ & Hd & Ht & _ & _).
  simpl in Hd, Ht.
  destruct (subcommand argv) as [[name args]|].
  - apply parse_subcommand_inv in Hsub as (_ & Hd' & Ht' & _ & st & Hs & _ & Hcase).
    rewrite Hd', Ht'. split; [exact Hd|]. split; [exact Ht|].
    intros args' [= -> <-]. simpl in Hs.
    apply sub_actions_accepted in Hs as (_ & _ & _ & Hlast & _).
    destruct Hcase as [(_ & _ & _ & ->)|([?|?] & _)]; [|discriminate..].
    rewrite Hlast by reflexivity. reflexivity.
  - subst ns1. split; [exact Hd|]. split; [exact Ht|]. intros; discriminate.
Qed.

(** X2.  A command line with an invalid value is never accepted, even when a
    later occurrence would replace the value: in an accepted command line
    every [-t/--timeout] value is an integer for [int], and every
    [-a/--accent] value of [download] is one of gb, us, all. *)
Theorem parse_args_values_valid argv ns :
  parse_args argv = Ret ns ->
  (forall v, OptTimeout v ∈ globals argv -> is_Some (py_int v)) /\
  (forall args v, subcommand argv = Some ("download", args) ->
     ArgAccent v ∈ args -> v ∈ accent_choices).
Proof.
  intros (ns1 & Hg & Hsub)%parse_args_inv.
  apply global_actions_accepted in Hg as (_ & _ & Hint & _).
  split; [exact Hint|].
  intros args v Hargs Hin. rewrite Hargs in Hsub.
  apply parse_subcommand_inv in Hsub as (_ & _ & _ & _ & st & Hs & _).
  simpl in Hs. apply sub_actions_accepted in Hs as (_ & _ & Hacc & _).
  exact (Hacc eq_refl v Hin).
Qed.

(** X3.  [parse_args] accepts no argument it does not know: an accepted
    command line has no unknown option before the sub-command, its
    sub-command (if any) is download, cache-info or clear-cache, and what
    follows it holds no option that the sub-parser does not declare; in
    particular the top-level options are not accepted after the sub-command,
    nor [-a/--accent] after cache-info or clear-cache. *)
Theorem parse_args_nothing_unrecognised argv ns :
  parse_args argv = Ret ns ->
  (forall t, OptUnknown t ∉ globals argv) /\
  (forall name args, subcommand argv = Some (name, args) ->
     name ∈ ["download"; "cache-info"; "clear-cache"] /\
     (forall t, ArgUnknown t ∉ args) /\
     (name <> "download" -> forall v, ArgAccent v ∉ args)).
Proof.
  intros (ns1 & Hg & Hsub)%parse_args_inv.
  apply global_actions_accepted in Hg as (_ & _ & _ & _ & _ & _ & Hex).
  split.
  - intros t Hin. symmetry in Hex. simpl in Hex.
    assert (existsb is_OptUnknown (globals argv) = true) as H; [|congruence].
    apply existsb_exists. exists (OptUnknown t). split; [|reflexivity].
    apply list_elem_of_In, Hin.
  - intros name args Hargs. rewrite Hargs in Hsub.
    apply parse_subcommand_inv in Hsub as (_ & _ & _ & _ & st & Hs & Hex' & Hcase).
    apply sub_actions_accepted in Hs as (_ & _ & _ & _ & _ & _ & Hw).
    destruct (Hw Hex') as (Hu & Ha & _). split; [|split; [exact Hu|]].
    + destruct Hcase as [(-> & _)|([->| ->] & _)]; rewrite !elem_of_cons; auto.
    + intros Hne. apply Ha. apply String.eqb_neq. exact Hne.
Qed.

(** X4.  The words of an accepted command line are all the positionals that
    follow the sub-command, in the order given: at least one for download
    ([nargs="+"]), possibly none for cache-info and clear-cache
    ([nargs="*"]), whose namespace has no accent.  Without a sub-command the
    namespace has neither words nor accent, and [command] is [None]. *)
Theorem parse_args_words argv ns :
  parse_args argv = Ret ns ->
  match subcommand argv with
  | None => command ns = None /\ words ns = None /\ accent ns = None
  | Some (name, args) =>
      command ns = Some name /\
      words ns = Some (arg_words args) /\
      (name = "download" -> arg_words args <> []) /\
      (name <> "download" -> accent ns = None)
  end.
Proof.
  intros (ns1 & Hg & Hsub)%parse_args_inv.
  pose proof (global_actions_fields _ _ _ _ _ Hg) as (Hc & Hw & Ha & _).
  simpl in Hc, Hw, Ha.
  destruct (subcommand argv) as [[name args]|].
  - apply parse_subcommand_inv in Hsub as (Hcmd & _ & _ & _ & st & Hs & Hex' & Hcase).
    pose proof (sub_actions_wf _ _ _ _ Hs I) as Hwf.
    apply sub_actions_accepted in Hs as (_ & _ & _ & _ & _ & _ & Hwl).
    destruct (Hwl Hex') as (_ & _ & Hlist). simpl in Hlist.
    split; [exact Hcmd|].
    destruct Hcase as [(-> & Hread & Hsome & Hacc)|(Hname & Hwords & Hacc)].
    + destruct (sub_words st) as [|ws|ws]; simpl in *;
        [congruence| |]; (split; [congruence|]); (split; [congruence|]);
        intros H; destruct (H eq_refl).
    + split; [congruence|]. split; [|auto].
      intros ->. destruct Hname; discriminate.
  - subst ns1. auto.
Qed.

(** How [parse_args] raises. *)
Lemma parse_args_raise_cases argv e :
  parse_args argv = Raise e ->
  (e = SystemExit 0 /\
   (OptHelp ∈ globals argv \/
    exists name args, subcommand argv = Some (name, args) /\ ArgHelp ∈ args)) \/
  e = SystemExit 2.
Proof.
  assert (forall os st, global_actions st os = Raise e ->
            (e = SystemExit 0 /\ OptHelp ∈ os) \/ e = SystemExit 2) as Hglob.
  { induction os as [|o os IH]; intros [ns ex]; cbn [global_actions]; [discriminate|].
    destruct (global_action (ns, ex) o) as [st1|e1] eqn:Ho.
    - intros H. destruct (IH _ H) as [[-> Hin]| ->]; [left|right; reflexivity].
      split; [reflexivity|right; exact Hin].
    - intros [= ->]. destruct o; simpl in Ho; try discriminate.
      + injection Ho as <-. left. split; [reflexivity|left].
      + destruct (py_int value); [discriminate|]. injection Ho as <-. auto.
      + injection Ho as <-. auto. }
  assert (forall h args st, sub_actions h st args = Raise e ->
            (e = SystemExit 0 /\ ArgHelp ∈ args) \/ e = SystemExit 2) as Hsubs.
  { intros h. induction args as [|a args IH]; intros st; cbn [sub_actions]; [discriminate|].
    destruct (sub_action h st a) as [st1|e1] eqn:Ha.
    - intros H. destruct (IH _ H) as [[-> Hin]| ->]; [left|right; reflexivity].
      split; [reflexivity|right; exact Hin].
    - intros [= ->]. destruct a; simpl in Ha; try discriminate.
      + injection Ha as <-. left. split; [reflexivity|left].
      + destruct (sub_words st); discriminate.
      + destruct h; [|discriminate].
        case_bool_decide; [discriminate|]. injection Ha as <-. auto.
      + injection Ha as <-. auto. }
  unfold parse_args.
  destruct (global_actions _ (globals argv)) as [[ns1 ex1]|e1] eqn:Hg.
  - destruct (subcommand argv) as [[name args]|].
    + destruct (parse_subcommand ns1 ex1 name args) as [[ns2 ex2]|e2] eqn:Hp.
      * destruct ex2; [|discriminate]. intros [= <-]. auto.
      * intros [= ->]. unfold parse_subcommand in Hp.
        destruct (String.eqb name "download").
        -- destruct (sub_actions true _ args) as [st|e3] eqn:Hs.
           ++ destruct (words_read _); [discriminate|]. injection Hp as <-. auto.
           ++ injection Hp as ->. destruct (Hsubs _ _ _ Hs) as [[-> Hin]| ->]; eauto 8.
        -- destruct (_ || _).
           ++ destruct (sub_actions false _ args) as [st|e3] eqn:Hs; [discriminate|].
              injection Hp as ->. destruct (Hsubs _ _ _ Hs) as [[-> Hin]| ->]; eauto 8.
           ++ injection Hp as <-. auto.
    + destruct ex1; [|discriminate]. intros [= <-]. auto.
  - intros [= ->]. destruct (Hglob _ _ Hg) as [[-> Hin]| ->]; auto.
Qed.

(** X5.  [parse_args] leaves only by returning a namespace or by
    [SystemExit]: with status 0 when help was asked for, with status 2
    (a usage error) otherwise. *)
Theorem parse_args_exit_status argv e :
  parse_args argv = Raise e ->
  (e = SystemExit 0 /\
   (OptHelp ∈ globals argv \/
    exists name args, subcommand argv = Some (name, args) /\ ArgHelp ∈ args)) \/
  e = SystemExit 2.
Proof. apply parse_args_raise_cases. Qed.

(** The verbosity of an accepted command line. *)
Lemma parse_args_verbose argv ns :
  parse_args argv = Ret ns -> verbose ns = bool_decide (OptVerbose ∈ globals argv).
Proof.
  intros (ns1 & Hg & Hsub)%parse_args_inv.
  apply global_actions_accepted in Hg as (_ & _ & _ & _ & _ & Hv & _). simpl in Hv.
  destruct (subcommand argv) as [[name args]|]; [|congruence].
  apply parse_subcommand_inv in Hsub as (_ & _ & _ & Hv' & _). congruence.
Qed.

(** Without a sub-command, [command] is [None]. *)
Lemma parse_args_no_command argv ns :
  parse_args argv = Ret ns -> subcommand argv = None -> command ns = None.
Proof.
  intros (ns1 & Hg & Hsub)%parse_args_inv Hnone. rewrite Hnone in Hsub. subst ns1.
  apply global_actions_fields in Hg as (Hc & _). exact Hc.
Qed.

Lemma global_actions_total os : forall ns ex,
  Forall valid_global os ->
  exists ns', global_actions (ns, ex) os = Ret (ns', ex).
Proof.
  induction os as [|o os IH]; intros ns ex Hall; cbn [global_actions]; [eauto|].
  inversion Hall as [|? ? Ho Hos]; subst.
  destruct o; simpl in Ho; try contradiction; cbn [global_action];
    try (apply IH; exact Hos).
  destruct Ho as [n ->]. apply IH, Hos.
Qed.

Lemma sub_actions_app h l1 l2 : forall st,
  sub_actions h st (l1 ++ l2) =
  match sub_actions h st l1 with
  | Ret st1 => sub_actions h st1 l2
  | Raise e => Raise e
  end.
Proof.
  induction l1 as [|a l1 IH]; intros st; cbn [sub_actions app]; [reflexivity|].
  destruct (sub_action h st a); [apply IH|reflexivity].
Qed.

Lemma sub_actions_accents vs : forall st,
  Forall (fun v => v ∈ accent_choices) vs ->
  exists st',
    sub_actions true st (ArgAccent <$> vs) = Ret st' /\
    sub_extras st' = sub_extras st /\
    words_read (sub_words st') = words_read (sub_words st) /\
    (sub_words st = WNone -> sub_words st' = WNone).
Proof.
  induction vs as [|v vs IH]; intros st Hall; cbn [fmap list_fmap sub_actions]; [eauto|].
  inversion Hall as [|? ? Hv Hvs]; subst.
  cbn [sub_action]. rewrite (bool_decide_eq_true_2 _ Hv).
  destruct (IH (mkSubState (close_words (sub_words st)) v (sub_extras st)) Hvs)
    as (st' & -> & He & Hw & Hn).
  exists st'. simpl in *. repeat split; auto.
  - rewrite Hw. destruct (sub_words st); reflexivity.
  - intros H. apply Hn. rewrite H. reflexivity.
Qed.

Lemma sub_actions_words h ws : forall st run,
  sub_words st = WNone /\ run = [] \/ sub_words st = WOpen run ->
  exists st',
    sub_actions h st (ArgWord <$> ws) = Ret st' /\
    sub_extras st' = sub_extras st /\
    sub_accent st' = sub_accent st /\
    sub_words st' = match ws with [] => sub_words st | _ :: _ => WOpen (run ++ ws) end.
Proof.
  induction ws as [|x ws IH]; intros st run Hst; cbn [fmap list_fmap sub_actions].
  - exists st. repeat split.
  - cbn [sub_action].
    assert (exists st1, match sub_words st with
                        | WNone => Ret (mkSubState (WOpen [x]) (sub_accent st) (sub_extras st))
                        | WOpen l =>
                            Ret (mkSubState (WOpen (l ++ [x])) (sub_accent st) (sub_extras st))
                        | WClosed l => Ret (mkSubState (WClosed l) (sub_accent st) true)
                        end = Ret st1 /\
                        sub_extras st1 = sub_extras st /\
                        sub_accent st1 = sub_accent st /\
                        sub_words st1 = WOpen (run ++ [x])) as (st1 & -> & He1 & Ha1 & Hw1).
    { destruct Hst as [[-> ->]| ->]; eauto 6. }
    destruct (IH st1 (run ++ [x])%list (or_intror Hw1)) as (st' & -> & He & Ha & Hw).
    exists st'. split; [reflexivity|]. split; [congruence|]. split; [congruence|].
    rewrite Hw, Hw1. destruct ws; [reflexivity|]. rewrite <- app_assoc. reflexivity.
Qed.

(** X23.  Conversely, [parse_args] accepts every command line made of valid
    top-level options followed by [download], at least one word, and accent
    options with values among gb, us, all placed before or after the words;
    and every command line made of valid top-level options followed by
    [cache-info] or [clear-cache] and any number of words. *)
Theorem parse_args_accepts_well_formed os name before ws after :
  Forall valid_global os ->
  (name = "download" /\ ws <> [] /\
   Forall (fun v => v ∈ accent_choices) before /\
   Forall (fun v => v ∈ accent_choices) after) \/
  ((name = "cache-info" \/ name = "clear-cache") /\ before = [] /\ after = []) ->
  exists ns,
    parse_args (mkCmdline os (Some (name, download_args before ws after))) = Ret ns /\
    command ns = Some name /\ words ns = Some ws.
Proof.
  intros Hos Hcase. unfold parse_args. cbn [globals subcommand].
  destruct (global_actions_total os default_Namespace false Hos) as (ns1 & ->).
  unfold parse_subcommand, download_args.
  destruct Hcase as [(-> & Hne & Hb & Ha)|(Hname & -> & ->)].
  - assert (String.eqb "download" "download" = true) as -> by reflexivity.
    rewrite sub_actions_app.
    destruct (sub_actions_accents before (mkSubState WNone "all" false) Hb)
      as (st1 & -> & He1 & _ & Hw1).
    rewrite sub_actions_app.
    destruct (sub_actions_words true ws st1 [] (or_introl (conj (Hw1 eq_refl) eq_refl)))
      as (st2 & -> & He2 & _ & Hw2).
    destruct (sub_actions_accents after st2 Ha) as (st3 & -> & He3 & Hw3 & _).
    rewrite Hw3, Hw2. destruct ws as [|x ws]; [contradiction|]. cbn.
    rewrite He3, He2, He1. cbn. eauto.
  - assert (String.eqb name "download" = false) as ->
      by (destruct Hname as [-> | ->]; reflexivity).
    assert (String.eqb name "cache-info" || String.eqb name "clear-cache" = true) as ->
      by (destruct Hname as [-> | ->]; reflexivity).
    cbn [fmap list_fmap app]. rewrite app_nil_r.
    destruct (sub_actions_words false ws (mkSubState WNone "all" false) []
                (or_introl (conj eq_refl eq_refl))) as (st2 & -> & He2 & _ & Hw2).
    rewrite Hw2, He2. cbn. destruct ws; cbn; eauto.
Qed.

End ParseMore.

Lemma parse_args_last_value_wins_witness :
  output_dir verbose_ns = PyPath "b" /\ py_int "5" = Some (timeout verbose_ns) /\
  accent verbose_ns = Some "us".
Proof.
  destruct (parse_args_last_value_wins (lib := mock_lib) argv_verbose verbose_ns eq_refl) as (H1 & H2 & H3).
  split; [exact H1|]. split; [exact H2|]. exact (H3 _ eq_refl).
Defined.

Lemma parse_args_values_valid_witness :
  is_Some (py_int "5") /\ "gb" ∈ accent_choices.
Proof.
  destruct (parse_args_values_valid (lib := mock_lib) argv_verbose verbose_ns eq_refl) as (H1 & H2).
  split.
  - apply H1. apply list_elem_of_In. simpl. auto.
  - apply (H2 _ "gb" eq_refl). apply list_elem_of_In. simpl. auto.
Defined.

Lemma parse_args_nothing_unrecognised_witness :
  "download" ∈ ["download"; "cache-info"; "clear-cache"].
Proof.
  destruct (parse_args_nothing_unrecognised (lib := mock_lib) argv_verbose verbose_ns eq_refl) as (_ & H).
  destruct (H _ _ eq_refl) as (H1 & _). exact H1.
Defined.

Lemma parse_args_words_witness :
  words verbose_ns = Some ["hello"; "cat"] /\ words none_ns = None.
Proof.
  pose proof (parse_args_words (lib := mock_lib) argv_verbose verbose_ns eq_refl) as H1.
  pose proof (parse_args_words (lib := mock_lib) argv_none none_ns eq_refl) as H2.
  simpl in H1, H2. destruct H1 as (_ & H1 & _). destruct H2 as (_ & H2 & _).
  split; assumption.
Defined.

Lemma parse_args_exit_status_witness :
  (SystemExit 2 = SystemExit 0 /\
   (OptHelp ∈ globals argv_bad_timeout \/
    exists name args,
      subcommand argv_bad_timeout = Some (name, args) /\ ArgHelp ∈ args)) \/
  SystemExit 2 = SystemExit 2.
Proof.
  exact (parse_args_exit_status (lib := mock_lib) argv_bad_timeout (SystemExit 2) eq_refl).
Defined.

Lemma parse_args_accepts_well_formed_witness :
  exists ns,
    parse_args (lib := mock_lib)
      (mkCmdline [OptVerbose; OptTimeout "5"]
         (Some ("download", download_args ["gb"] ["hello"; "cat"] ["us"]))) = Ret ns /\
    command ns = Some "download" /\ words ns = Some ["hello"; "cat"].
Proof.
  apply (parse_args_accepts_well_formed (lib := mock_lib)).
  - repeat constructor. exists 5%Z. reflexivity.
  - left. split; [reflexivity|]. split; [discriminate|].
    split; repeat constructor.
Defined.

(** ** [main] and [setup_logging] *)

Section MainMore.
Context {World : Type} {api : DownloaderAPI World} {lib : PyLib}.

(** X6.  Logging is configured before anything else is done, at level DEBUG
    exactly when [-v/--verbose] is given and at level INFO otherwise. *)
Theorem logging_level_follows_verbose argv ns w :
  parse_args argv = Ret ns ->
  exists rest,
    trace (main argv w) =
    EvBasicConfig (if bool_decide (OptVerbose ∈ globals argv) then DEBUG else INFO) :: rest.
Proof.
  intros Hp. rewrite main_unfold, Hp. cbv zeta.
  rewrite (parse_args_verbose _ _ Hp).
  destruct (dl_init (make_config ns) w) as [[d|e] w1]; cbn [trace]; eauto.
Qed.

(** X7.  Without a sub-command [main] still constructs a downloader; when
    the constructor returns, the only thing done next is to log that no
    command was specified, and the result is 1. *)
Theorem main_without_command argv ns w d w1 :
  parse_args argv = Ret ns ->
  subcommand argv = None ->
  dl_init (make_config ns) w = (Ret d, w1) ->
  main argv w =
  Run (Ret 1%Z) w1
    [EvBasicConfig (if verbose ns then DEBUG else INFO);
     EvInit (make_config ns) (Ret tt);
     EvLogError "No command specified. Use --help for usage information."].
Proof.
  intros Hp Hnone Hinit. rewrite main_unfold, Hp. cbv zeta. rewrite Hinit.
  unfold try_except, dispatch. rewrite (parse_args_no_command _ _ Hp Hnone).
  rewrite !bool_decide_eq_false_2 by discriminate. reflexivity.
Qed.

(** X8.  The constructor call of line 164 is outside the [try]: when it
    raises, whatever the sub-command, [main] ends with that exception, no
    handler is entered and nothing is logged; for an [Exception] the process
    ends with status 1. *)
Theorem constructor_failure_is_not_caught argv ns w e w1 :
  parse_args argv = Ret ns ->
  dl_init (make_config ns) w = (Raise e, w1) ->
  let '(status, w', tr) := script argv w in
  result (main argv w) = Raise e /\
  w' = w1 /\
  tr = [EvBasicConfig (if verbose ns then DEBUG else INFO);
        EvInit (make_config ns) (Raise e)] /\
  error_records tr = [] /\
  (is_Exception e = true -> status = Exited 1).
Proof.
  intros Hp Hinit. unfold script. rewrite main_unfold, Hp. cbv zeta. rewrite Hinit.
  cbn. repeat split. intros He. destruct e; try discriminate; reflexivity.
Qed.

End MainMore.

Lemma logging_level_follows_verbose_witness :
  exists rest, trace (main argv_verbose demo_world) = EvBasicConfig DEBUG :: rest.
Proof.
  exact (logging_level_follows_verbose (lib := mock_lib) argv_verbose verbose_ns demo_world
           eq_refl).
Defined.

Lemma main_without_command_witness :
  result (main argv_none demo_world) = Ret 1%Z.
Proof.
  rewrite (main_without_command (api := mock_api) (lib := mock_lib) argv_none none_ns
             demo_world default_config demo_world_1 eq_refl eq_refl eq_refl).
  reflexivity.
Defined.

Lemma constructor_failure_is_not_caught_witness :
  (script argv_hello broken_world).1.1 = Exited 1.
Proof.
  pose proof (constructor_failure_is_not_caught (api := mock_api) (lib := mock_lib)
                argv_hello (download_ns ["hello"] "all" false) broken_world
                (OtherException "OSError" "cannot create the output directory")
                broken_world eq_refl eq_refl) as H.
  destruct (script argv_hello broken_world) as [[status w'] tr].
  destruct H as (_ & _ & _ & _ & H). apply H. reflexivity.
Defined.

(** ** Exceptions and results of the handlers *)

Section Accounting.
Context {World : Type}.

Lemma accounted_ret {A} (a : A) : accounted (@ret World A a).
Proof. intros w e. discriminate. Qed.

Lemma accounted_raise {A} e : is_Exception e = true -> accounted (@raise World A e).
Proof. intros He w e' [= <-]. left. exact He. Qed.

Lemma accounted_emit ev : accounted (@emit World ev).
Proof. intros w e. discriminate. Qed.

Lemma accounted_call {A} (f : World -> res A * World) ev :
  (forall e, raised (ev (Raise e)) = Some e) -> accounted (call f ev).
Proof.
  intros Hev w e. unfold call. destruct (f w) as [r w']. cbn.
  intros ->. right. exists (ev (Raise e)). split; [left|apply Hev].
Qed.

Lemma accounted_bind {A B} (m : M World A) (k : A -> M World B) :
  accounted m -> (forall a, accounted (k a)) -> accounted (bind m k).
Proof.
  intros Hm Hk w e. unfold bind.
  destruct (result (m w)) as [a|e0] eqn:Hr; cbn.
  - intros H. destruct (Hk a _ _ H) as [He|(ev & Hin & Hev)]; [auto|].
    right. exists ev. split; [apply elem_of_app; auto|exact Hev].
  - intros [= ->]. apply Hm. exact Hr.
Qed.

Lemma accounted_try_except {A} (body : M World A) handler :
  accounted body ->
  (forall e h, handler e = Some h -> accounted h) ->
  accounted (try_except body handler).
Proof.
  intros Hb Hh w e. unfold try_except.
  destruct (result (body w)) as [a|e0] eqn:Hr.
  - rewrite Hr. discriminate.
  - destruct (handler e0) as [h|] eqn:He0.
    + cbn. intros H. destruct (Hh _ _ He0 _ _ H) as [He|(ev & Hin & Hev)]; [auto|].
      right. exists ev. split; [apply elem_of_app; auto|exact Hev].
    + rewrite Hr. intros [= ->]. apply Hb. exact Hr.
Qed.

Lemma accounted_for_in {A S} (xs : list A) (body : S -> A -> M World S) :
  (forall s x, accounted (body s x)) -> forall s, accounted (for_in xs body s).
Proof.
  intros Hb. induction xs as [|x xs IH]; intros s; cbn [for_in].
  - apply accounted_ret.
  - apply accounted_bind; [apply Hb|exact IH].
Qed.

Lemma returns_ret c : c = 0%Z \/ c = 1%Z -> returns_0_or_1 (@ret World Z c).
Proof. intros Hc w c' [= <-]. exact Hc. Qed.

Lemma returns_bind {A} (m : M World A) (k : A -> M World Z) :
  (forall a, returns_0_or_1 (k a)) -> returns_0_or_1 (bind m k).
Proof.
  intros Hk w c. unfold bind. destruct (result (m w)) as [a|e]; cbn; [|discriminate].
  apply Hk.
Qed.

Lemma returns_try_except (body : M World Z) handler :
  returns_0_or_1 body ->
  (forall e h, handler e = Some h -> returns_0_or_1 h) ->
  returns_0_or_1 (try_except body handler).
Proof.
  intros Hb Hh w c. unfold try_except.
  destruct (result (body w)) as [a|e0] eqn:Hr.
  - rewrite Hr. intros [= <-]. eapply Hb, Hr.
  - destruct (handler e0) as [h|] eqn:He0.
    + cbn. eapply Hh, He0.
    + rewrite Hr. discriminate.
Qed.

End Accounting.

Ltac accounted_step :=
  match goal with
  | |- accounted (ret _) => apply accounted_ret
  | |- accounted (raise _) => apply accounted_raise; reflexivity
  | |- accounted (emit _) => apply accounted_emit
  | |- accounted (call _ _) => apply accounted_call; intros ?; reflexivity
  | |- accounted (bind _ _) => apply accounted_bind; [|intros ?]
  | |- accounted (try_except _ _) =>
      let H := fresh "Hh" in
      apply accounted_try_except; [|intros ? ? H; cbv beta in H; handler_cases H]
  | |- accounted (for_in _ _ _) => apply accounted_for_in; intros ? ?
  | |- accounted (match ?x with _ => _ end) => destruct x
  end.

Ltac returns_step :=
  match goal with
  | |- returns_0_or_1 (ret (if ?b then _ else _)) => destruct b
  | |- returns_0_or_1 (ret _) => apply returns_ret; auto
  | |- returns_0_or_1 (bind _ _) => apply returns_bind; intros ?
  | |- returns_0_or_1 (try_except _ _) =>
      let H := fresh "Hh" in
      apply returns_try_except; [|intros ? ? H; cbv beta in H; handler_cases H]
  | |- returns_0_or_1 (match ?x with _ => _ end) => destruct x
  | |- returns_0_or_1 (if ?b then _ else _) => destruct b
  end.

Lemma only_errors_elem tr ev e :
  only_errors tr = true -> ev ∈ tr -> raised ev = Some e -> is_Exception e = true.
Proof.
  unfold only_errors. rewrite forallb_forall. intros Hall Hin Hev.
  apply list_elem_of_In, Hall in Hin. rewrite Hev in Hin. exact Hin.
Qed.

Section ExitStatus.
Context {World : Type} {api : DownloaderAPI World} {lib : PyLib}.

Lemma dispatch_accounted args config d : accounted (dispatch args config d).
Proof.
  unfold dispatch, process_words, process_word, word_handler, fetch_paths,
    show_cache_info, cache_info_handler, show_word, show_all, subscript,
    clear_cache, clear_cache_handler, getattr,
    GooglePronunciationDownloader, download_all_accents, download_pronunciation,
    get_cache_info, downloader_clear_cache, logging_error, print.
  repeat (accounted_step || case_bool_decide).
  all: try (apply accounted_call; intros e; reflexivity).
  all: try (intros w e; unfold AccentType_call, AccentType_of; cbn;
            repeat (destruct (String.eqb _ _)); try discriminate;
            intros [= <-]; left; reflexivity).
Qed.

Lemma dispatch_returns args config d : returns_0_or_1 (dispatch args config d).
Proof.
  unfold dispatch, process_words, show_cache_info, cache_info_handler,
    clear_cache, clear_cache_handler, logging_error.
  repeat (returns_step || case_bool_decide).
Qed.

(** X9.  Whatever the command line and the world, as long as the downloader
    raises nothing but [Exception]s the process ends with status 0, 1 or 2,
    and with 2 only when [parse_args] rejects the command line. *)
Theorem exit_status_range argv w :
  let '(status, _, tr) := script argv w in
  only_errors tr = true ->
  status = Exited 0 \/ status = Exited 1 \/
  (status = Exited 2 /\ parse_args argv = Raise (SystemExit 2)).
Proof.
  unfold script. rewrite main_unfold.
  destruct (parse_args argv) as [ns|e] eqn:Hp.
  - cbv zeta. destruct (dl_init (make_config ns) w) as [[d|e] w1]; cbn [result final trace].
    + intros Honly.
      assert (accounted (try_except (dispatch ns (make_config ns) d) main_handler)) as Hacc.
      { apply accounted_try_except; [apply dispatch_accounted|].
        intros e h Hh. unfold main_handler in Hh. handler_cases Hh.
        unfold logging_error. repeat accounted_step. }
      assert (returns_0_or_1 (try_except (dispatch ns (make_config ns) d) main_handler))
        as Hret.
      { apply returns_try_except; [apply dispatch_returns|].
        intros e h Hh. unfold main_handler in Hh. handler_cases Hh.
        repeat returns_step. }
      destruct (result (try_except (dispatch ns (make_config ns) d) main_handler w1))
        as [c|e] eqn:Hr.
      * destruct (Hret _ _ Hr) as [-> | ->]; auto.
      * right. left.
        assert (is_Exception e = true) as He.
        { destruct (Hacc _ _ Hr) as [He|(ev & Hin & Hev)]; [exact He|].
          eapply only_errors_elem; [exact Honly| |exact Hev].
          right. right. exact Hin. }
        destruct e; try discriminate; reflexivity.
    + cbn. rewrite andb_true_r. intros He. right. left.
      destruct e; try discriminate; reflexivity.
  - cbn. intros _. destruct (parse_args_raise_cases _ _ Hp) as [[-> _]| ->]; auto.
Qed.

End ExitStatus.

Lemma exit_status_range_witness :
  (script argv_bad_timeout demo_world).1.1 = Exited 0 \/
  (script argv_bad_timeout demo_world).1.1 = Exited 1 \/
  ((script argv_bad_timeout demo_world).1.1 = Exited 2 /\
   parse_args argv_bad_timeout = Raise (SystemExit 2)).
Proof.
  pose proof (exit_status_range (api := mock_api) (lib := mock_lib)
                argv_bad_timeout demo_world) as H.
  destruct (script argv_bad_timeout demo_world) as [[status w'] tr] eqn:E.
  injection E as _ _ <-. apply H. reflexivity.
Defined.

(** ** Which handler calls what *)

Section Calls.
Context {World : Type} {api : DownloaderAPI World} {lib : PyLib}.

Ltac event_leaf :=
  match goal with
  | |- forall c, event_command _ = Some c -> _ =>
      let H := fresh in intros ? H; cbn in H; first [discriminate H | injection H as <-; reflexivity]
  end.

Lemma process_words_calls ws config a :
  emits (fun ev => forall c, event_command ev = Some c -> c = "download")
    (process_words ws config a).
Proof.
  unfold process_words, GooglePronunciationDownloader, process_word, word_handler,
    fetch_paths, download_all_accents, download_pronunciation, logging_error.
  repeat emits_step; try event_leaf.
  intros w'. unfold AccentType_call. repeat constructor. event_leaf.
Qed.

Lemma show_cache_info_calls d ws :
  emits (fun ev => forall c, event_command ev = Some c -> c = "cache-info")
    (show_cache_info d ws).
Proof.
  unfold show_cache_info, cache_info_handler, show_all, show_word, subscript,
    get_cache_info, print, logging_error.
  repeat emits_step; event_leaf.
Qed.

Lemma clear_cache_calls d ws :
  emits (fun ev => forall c, event_command ev = Some c -> c = "clear-cache")
    (clear_cache d ws).
Proof.
  unfold clear_cache, clear_cache_handler, downloader_clear_cache, logging_error.
  repeat emits_step; event_leaf.
Qed.

(** X10.  Each sub-command touches the downloader only through its own
    methods: downloads and accent conversions happen only under download,
    cache queries and printing only under cache-info, cache removals only
    under clear-cache.  So cache-info never changes the cache through the
    command line, and download never clears it. *)
Theorem handlers_use_only_their_calls argv ns w ev c :
  parse_args argv = Ret ns ->
  ev ∈ trace (main argv w) ->
  event_command ev = Some c ->
  command ns = Some c.
Proof.
  intros Hp Hin Hc. rewrite main_unfold, Hp in Hin. cbv zeta in Hin.
  destruct (dl_init (make_config ns) w) as [[d|e] w1]; cbn [trace] in Hin.
  - apply elem_of_cons in Hin as [->|Hin]; [discriminate|].
    apply elem_of_cons in Hin as [->|Hin]; [discriminate|].
    assert (emits (fun ev => forall c, event_command ev = Some c -> command ns = Some c)
              (try_except (dispatch ns (make_config ns) d) main_handler)) as Hemits.
    { apply emits_try_except.
      - unfold dispatch.
        case_bool_decide as H1.
        { unfold getattr. destruct (words ns), (accent ns); repeat emits_step.
          intros ?. eapply Forall_impl; [apply process_words_calls|].
          intros ev' H c' Hc'. rewrite (H _ Hc'). exact H1. }
        case_bool_decide as H2.
        { unfold getattr. destruct (words ns); repeat emits_step.
          intros ?. eapply Forall_impl; [apply show_cache_info_calls|].
          intros ev' H c' Hc'. rewrite (H _ Hc'). exact H2. }
        case_bool_decide as H3.
        { unfold getattr. destruct (words ns); repeat emits_step.
          intros ?. eapply Forall_impl; [apply clear_cache_calls|].
          intros ev' H c' Hc'. rewrite (H _ Hc'). exact H3. }
        unfold logging_error. repeat emits_step. intros; discriminate.
      - intros e h Hh. unfold main_handler in Hh. handler_cases Hh.
        unfold logging_error. repeat emits_step. intros; discriminate. }
    specialize (Hemits w1). rewrite Forall_forall in Hemits. exact (Hemits _ Hin _ Hc).
  - apply elem_of_cons in Hin as [->|Hin]; [discriminate|].
    apply elem_of_cons in Hin as [->|Hin]; [discriminate|].
    apply elem_of_nil in Hin. destruct Hin.
Qed.

End Calls.

Lemma handlers_use_only_their_calls_witness :
  command (cache_info_ns ["cat"; "hello"]) = Some "cache-info".
Proof.
  apply (handlers_use_only_their_calls (api := mock_api) (lib := mock_lib)
           argv_cache_info_cat_hello (cache_info_ns ["cat"; "hello"]) demo_world
           (EvGetCacheInfo (Some "cat") (Ret [])) "cache-info" eq_refl).
  - apply list_elem_of_In. vm_compute. tauto.
  - reflexivity.
Defined.

(** ** [process_words] *)

Section ProcessMore.
Context {World : Type} {api : DownloaderAPI World} {lib : PyLib}.

(** X11.  [SystemExit] and [KeyboardInterrupt] are not failures of a word:
    when the download of [word] raises one of them, neither [except] clause
    of the loop nor the one of [main] matches, the loop ends there with that
    exception, nothing is logged for the word and the words after it are
    not processed. *)
Theorem interrupt_stops_the_batch config a pre word post w d w0 b e :
  dl_init config w = (Ret d, w0) ->
  let r_pre := for_in pre (process_word d a) true w0 in
  result r_pre = Ret b ->
  let f := fetch_paths d a word (final r_pre) in
  result f = Raise e ->
  is_Exception e = false ->
  let r := process_words (pre ++ word :: post) config a w in
  r = Run (Raise e) (final f) (EvInit config (Ret tt) :: trace r_pre ++ trace f) /\
  try_except (process_words (pre ++ word :: post) config a) main_handler w = r.
Proof.
  intros Hinit r_pre Hpre f Hf He r.
  assert (r = Run (Raise e) (final f) (EvInit config (Ret tt) :: trace r_pre ++ trace f))
    as Hr.
  { subst r. rewrite process_words_unfold, Hinit. cbv zeta.
    rewrite for_in_app. cbv zeta. fold r_pre. rewrite Hpre.
    rewrite for_in_cons, process_word_run. cbv zeta. fold f. rewrite Hf.
    cbn [word_failed]. rewrite He. cbn [result final trace]. reflexivity. }
  split; [exact Hr|].
  unfold try_except. fold r. rewrite Hr. cbn [result]. unfold main_handler. rewrite He.
  reflexivity.
Qed.

(** X12.  With a single accent, a word succeeds exactly when
    [download_pronunciation] returns a path: a path leaves the flag as it
    was and logs nothing; [None] logs "No pronunciations downloaded" and
    clears the flag.  The accent string is converted before the call. *)
Theorem single_accent_outcome d a acc word success w path w' :
  a <> "all" ->
  AccentType_of a = Ret acc ->
  dl_download_pronunciation d word acc w = (Ret path, w') ->
  process_word d a success word w =
  match path with
  | Some p =>
      Run (Ret success) w'
        [EvAccentType a (Ret acc); EvDownloadOne word acc (Ret (Some p))]
  | None =>
      Run (Ret false) w'
        [EvAccentType a (Ret acc); EvDownloadOne word acc (Ret None);
         EvLogError ("No pronunciations downloaded for '" +:+ word +:+ "'")]
  end.
Proof.
  intros Hne Hacc Hdl.
  rewrite process_word_run, (fetch_paths_one _ _ _ _ _ Hne Hacc), Hdl.
  destruct path; reflexivity.
Qed.

(** The loop when the accent is not the value of any member. *)
Lemma invalid_accent_loop d a e :
  a <> "all" -> AccentType_of a = Raise e ->
  forall ws success w,
  for_in ws (process_word d a) success w =
  Run (Ret (match ws with [] => success | _ :: _ => false end)) w
    (concat (map (fun word =>
                    [EvAccentType a (Raise e);
                     EvLogError ("Unexpected error processing '" +:+ word +:+ "': "
                                 +:+ exn_str e)]) ws)).
Proof.
  intros Hne Hacc.
  assert (is_Download_or_Cache_Error e = false /\ is_Exception e = true) as [He1 He2].
  { unfold AccentType_of in Hacc. repeat destruct (String.eqb _ _); try discriminate.
    injection Hacc as <-. auto. }
  assert (forall word w, fetch_paths d a word w = Run (Raise e) w [EvAccentType a (Raise e)])
    as Hfetch.
  { intros word w. unfold fetch_paths.
    destruct (String.eqb a "all") eqn:E; [apply String.eqb_eq in E; contradiction|].
    unfold bind, AccentType_call. rewrite Hacc. reflexivity. }
  induction ws as [|x xs IH]; intros success w; [reflexivity|].
  rewrite for_in_cons, process_word_run, Hfetch. cbv zeta. cbn [result word_failed].
  rewrite He2. cbn [result final trace failure_message]. rewrite He1, IH.
  cbn [result final trace map concat]. destruct xs; reflexivity.
Qed.

(** X13.  Called with an accent that is neither "all" nor the value of a
    member of [AccentType], [process_words] never reaches the downloader
    after constructing it: for each word the conversion raises, the error is
    logged as unexpected, and the result is 1 (0 for an empty list). *)
Theorem invalid_accent_never_downloads ws config a e w d w0 :
  a <> "all" ->
  AccentType_of a = Raise e ->
  dl_init config w = (Ret d, w0) ->
  process_words ws config a w =
  Run (Ret (match ws with [] => 0 | _ :: _ => 1 end)%Z) w0
    (EvInit config (Ret tt) ::
     concat (map (fun word =>
                    [EvAccentType a (Raise e);
                     EvLogError ("Unexpected error processing '" +:+ word +:+ "': "
                                 +:+ exn_str e)]) ws)).
Proof.
  intros Hne Hacc Hinit. rewrite process_words_unfold, Hinit. cbv zeta.
  rewrite (invalid_accent_loop d a e Hne Hacc). cbn [result final trace].
  destruct ws; reflexivity.
Qed.

Lemma error_records_app tr1 tr2 :
  error_records (tr1 ++ tr2) = (error_records tr1 ++ error_records tr2)%list.
Proof. apply omap_app. Qed.

(** One iteration logs one record when the word fails and none otherwise. *)
Lemma process_word_records d a success word w :
  valid_accent a ->
  let r := process_word d a success word w in
  only_errors (trace r) = true ->
  exists b s', word_outcomes (trace r) = [(word, b)] /\ result r = Ret s' /\
    length (error_records (trace r)) = (if b then 0 else 1)%nat.
Proof.
  intros Hv. cbv zeta. rewrite process_word_run. cbv zeta.
  destruct (decide (a = "all")) as [->|Hne].
  - rewrite fetch_paths_all.
    destruct (dl_download_all_accents d word w) as [[[|p ps]|e] w'];
      try destruct e; cbn; try discriminate; intros _; eauto.
  - destruct Hv as [->|[acc Hacc]]; [contradiction|].
    rewrite (fetch_paths_one _ _ _ _ _ Hne Hacc).
    destruct (dl_download_pronunciation d word acc w) as [[[p|]|e] w'];
      try destruct e; cbn; try discriminate; intros _; eauto.
Qed.

Lemma process_loop_records d a :
  valid_accent a ->
  forall ws success w,
  let r := for_in ws (process_word d a) success w in
  only_errors (trace r) = true ->
  length (error_records (trace r)) =
  length (filter (fun o => o.2 = false) (word_outcomes (trace r))).
Proof.
  intros Hv. induction ws as [|x xs IH]; intros success w; cbn [for_in]; [reflexivity|].
  pose proof (process_word_records d a success x w Hv) as Hword. cbv zeta in Hword.
  unfold bind.
  destruct (process_word d a success x w) as [[s1|e] w1 t1];
    cbn [result final trace] in *.
  - specialize (IH s1 w1). cbv zeta in IH.
    rewrite only_errors_app, word_outcomes_app, error_records_app.
    intros [H1 H2]%andb_true_iff.
    destruct (Hword H1) as (b & s' & Hout & _ & Hlen).
    rewrite filter_app, !length_app, Hlen, (IH H2), Hout. destruct b; reflexivity.
  - intros H. destruct (Hword H) as (b & s' & _ & Hres & _). discriminate.
Qed.

(** X14.  Barring [SystemExit] and [KeyboardInterrupt], a run of
    [process_words] with an accent that [main] can pass makes exactly one
    download per word, in the order of the list, and logs exactly one error
    record per word that produced nothing. *)
Theorem one_download_and_one_record_per_word ws config a w d w0 :
  valid_accent a ->
  dl_init config w = (Ret d, w0) ->
  let tr := trace (process_words ws config a w) in
  only_errors tr = true ->
  map fst (word_outcomes tr) = ws /\
  length (error_records tr) = length (filter (fun o => o.2 = false) (word_outcomes tr)).
Proof.
  intros Hv Hinit. cbv zeta. rewrite process_words_unfold, Hinit. cbv zeta.
  cbn [trace]. intros Honly.
  assert (only_errors (trace (for_in ws (process_word d a) true w0)) = true) as H
    by exact Honly.
  split.
  - apply (process_loop_words d a Hv ws true w0 H).
  - apply (process_loop_records d a Hv ws true w0 H).
Qed.

End ProcessMore.

Lemma interrupt_stops_the_batch_witness :
  process_words (api := impatient_api) (["hello"] ++ "stop" :: ["cat"]) default_config "all" tt
  = Run (Raise KeyboardInterrupt) tt
      [EvInit default_config (Ret tt);
       EvDownloadAll "hello" (Ret [PyPath "hello.mp3"]);
       EvDownloadAll "stop" (Raise KeyboardInterrupt)].
Proof.
  destruct (interrupt_stops_the_batch (api := impatient_api) default_config "all"
              ["hello"] "stop" ["cat"] tt tt tt true KeyboardInterrupt
              eq_refl eq_refl eq_refl eq_refl) as [H _].
  exact H.
Defined.

Lemma single_accent_outcome_witness :
  process_word (api := mock_api) default_config "us" true "cat" demo_world =
  Run (Ret false) demo_world
    [EvAccentType "us" (Ret US); EvDownloadOne "cat" US (Ret None);
     EvLogError "No pronunciations downloaded for 'cat'"].
Proof.
  apply (single_accent_outcome (api := mock_api) default_config "us" US "cat" true
           demo_world None demo_world); [discriminate|reflexivity|reflexivity].
Defined.

Lemma invalid_accent_never_downloads_witness :
  result (process_words (api := mock_api) ["hello"; "cat"] default_config "fr" demo_world)
  = Ret 1%Z.
Proof.
  rewrite (invalid_accent_never_downloads (api := mock_api) ["hello"; "cat"] default_config
             "fr" (OtherException "ValueError" "'fr' is not a valid AccentType")
             demo_world default_config demo_world_1);
    [reflexivity|discriminate|reflexivity|reflexivity].
Defined.

Lemma one_download_and_one_record_per_word_witness :
  map fst (word_outcomes
             (trace (process_words (api := mock_api) ["hello"; "cat"] default_config "us"
                       demo_world))) = ["hello"; "cat"].
Proof.
  destruct (one_download_and_one_record_per_word (api := mock_api) ["hello"; "cat"]
              default_config "us" demo_world default_config demo_world_1) as [H _].
  - right. exists US. reflexivity.
  - reflexivity.
  - reflexivity.
  - exact H.
Defined.

(** ** [show_cache_info] and [clear_cache] *)

Section CacheCommandsMore.
Context {World : Type} {api : DownloaderAPI World} {lib : PyLib}.

(** Lines 121-126 for a word whose query returns a non-empty mapping. *)
Lemma show_word_found d word w kv info w' :
  dl_get_cache_info d (Some word) w = (Ret (kv :: info), w') ->
  show_word d tt word w =
  let header := EvPrint (nl +:+ "Cache info for '" +:+ word +:+ "':") in
  match dict_get (kv :: info) word with
  | Some v =>
      Run (Ret tt) w'
        [EvGetCacheInfo (Some word) (Ret (kv :: info)); header; EvPrint (json_dumps v 2)]
  | None =>
      Run (Raise (OtherException "KeyError" (py_repr word))) w'
        [EvGetCacheInfo (Some word) (Ret (kv :: info)); header]
  end.
Proof.
  intros H. unfold show_word, bind, get_cache_info, call, print, emit, subscript.
  rewrite H. cbn [result final trace].
  destruct (dict_get (kv :: info) word); reflexivity.
Qed.

(** The loop of [show_cache_info] on [pre ++ word :: post], once [pre] has
    been handled. *)
Lemma show_loop_split d pre word post w :
  let r_pre := for_in pre (show_word d) tt w in
  result r_pre = Ret tt ->
  for_in (pre ++ word :: post) (show_word d) tt w =
  let r1 := show_word d tt word (final r_pre) in
  match result r1 with
  | Ret _ =>
      let r_post := for_in post (show_word d) tt (final r1) in
      Run (result r_post) (final r_post) (trace r_pre ++ trace r1 ++ trace r_post)
  | Raise e => Run (Raise e) (final r1) (trace r_pre ++ trace r1)
  end.
Proof.
  intros r_pre Hpre. rewrite for_in_app. cbv zeta. fold r_pre. rewrite Hpre.
  rewrite for_in_cons. cbv zeta.
  destruct (show_word d tt word (final r_pre)) as [[[]|e] w1 t1];
    cbn [result final trace]; reflexivity.
Qed.

Lemma show_cache_info_nonempty d pre word post w :
  show_cache_info d (pre ++ word :: post) w =
  cache_info_result (for_in (pre ++ word :: post) (show_word d) tt w).
Proof. rewrite show_cache_info_unfold. destruct pre; reflexivity. Qed.

(** X15.  For a queried word whose mapping is not empty, [cache-info] prints
    a header and then the JSON of the entry stored under that very word
    (with indent 2), and goes on with the next words; when the mapping has
    no such key, the [KeyError] ends the command: it is logged and the
    result is 1. *)
Theorem cache_info_found_word d pre word post w kv info w' :
  let r_pre := for_in pre (show_word d) tt w in
  result r_pre = Ret tt ->
  dl_get_cache_info d (Some word) (final r_pre) = (Ret (kv :: info), w') ->
  let r_post := for_in post (show_word d) tt w' in
  let asked := EvGetCacheInfo (Some word) (Ret (kv :: info)) in
  let header := EvPrint (nl +:+ "Cache info for '" +:+ word +:+ "':") in
  show_cache_info d (pre ++ word :: post) w =
  match dict_get (kv :: info) word with
  | Some v =>
      cache_info_result
        (Run (result r_post) (final r_post)
           (trace r_pre ++ [asked; header; EvPrint (json_dumps v 2)] ++ trace r_post))
  | None =>
      Run (Ret 1%Z) w'
        (trace r_pre ++ [asked; header] ++
         [EvLogError ("Error getting cache info: " +:+ py_repr word)])
  end.
Proof.
  intros r_pre Hpre Hget r_post asked header.
  rewrite show_cache_info_nonempty, (show_loop_split d pre word post w Hpre).
  fold r_pre. cbv zeta. rewrite (show_word_found _ _ _ _ _ _ Hget). cbv zeta.
  destruct (dict_get (kv :: info) word) as [v|]; cbn [result final trace].
  - reflexivity.
  - unfold cache_info_result. cbn. rewrite <- app_assoc. reflexivity.
Qed.

(** X16.  Unlike the download loop, the loop of [cache-info] does not
    survive a failure: when the query for [word] raises an [Exception], it
    is logged, the result is 1, and the words after it are never queried. *)
Theorem cache_info_stops_at_first_error d pre word post w e w' :
  let r_pre := for_in pre (show_word d) tt w in
  result r_pre = Ret tt ->
  dl_get_cache_info d (Some word) (final r_pre) = (Raise e, w') ->
  is_Exception e = true ->
  let r := show_cache_info d (pre ++ word :: post) w in
  r = Run (Ret 1%Z) w'
        (trace r_pre ++
         [EvGetCacheInfo (Some word) (Raise e);
          EvLogError ("Error getting cache info: " +:+ exn_str e)]) /\
  queried (trace r) = (queried (trace r_pre) ++ [Some word])%list.
Proof.
  intros r_pre Hpre Hget He r.
  assert (r = Run (Ret 1%Z) w'
        (trace r_pre ++
         [EvGetCacheInfo (Some word) (Raise e);
          EvLogError ("Error getting cache info: " +:+ exn_str e)])) as Hr.
  { subst r. rewrite show_cache_info_nonempty, (show_loop_split d pre word post w Hpre).
    fold r_pre. cbv zeta.
    assert (show_word d tt word (final r_pre) =
            Run (Raise e) w' [EvGetCacheInfo (Some word) (Raise e)]) as ->.
    { unfold show_word, bind, get_cache_info, call. rewrite Hget. reflexivity. }
    unfold cache_info_result. cbn [result final trace]. rewrite He.
    rewrite <- app_assoc. reflexivity. }
  split; [exact Hr|]. rewrite Hr. cbn [trace]. unfold queried.
  rewrite omap_app. reflexivity.
Qed.

End CacheCommandsMore.

Section ClearMore.
Context {World : Type} {api : DownloaderAPI World} {lib : PyLib}.

Lemma clear_word_run d x w :
  clear_word d tt x w =
  let '(r, w') := dl_clear_cache d (Some x) w in
  Run r w' [EvClearCache (Some x) r].
Proof. reflexivity. Qed.

Lemma clear_cache_unfold d ws w :
  clear_cache d ws w =
  clear_cache_result (match ws with
                      | [] => downloader_clear_cache d None w
                      | _ :: _ => for_in ws (clear_word d) tt w
                      end).
Proof.
  unfold clear_cache, clear_cache_handler, clear_cache_result, try_except, bind,
    logging_error, emit, ret.
  destruct ws as [|x xs].
  - destruct (downloader_clear_cache d None w) as [[[]|e] w1 t1];
      cbn [result final trace]; rewrite ?app_nil_r; [reflexivity|].
    destruct (is_Exception e); reflexivity.
  - change (fun _ word => downloader_clear_cache d (Some word)) with (clear_word d).
    destruct (for_in (x :: xs) (clear_word d) tt w) as [[[]|e] w1 t1];
      cbn [result final trace]; rewrite ?app_nil_r; [reflexivity|].
    destruct (is_Exception e); reflexivity.
Qed.

Lemma clear_loop_success d ws : forall w,
  result (for_in ws (clear_word d) tt w) = Ret tt ->
  trace (for_in ws (clear_word d) tt w) =
  map (fun word => EvClearCache (Some word) (Ret tt)) ws.
Proof.
  induction ws as [|x xs IH]; intros w; [reflexivity|].
  rewrite for_in_cons, clear_word_run. cbv zeta.
  destruct (dl_clear_cache d (Some x) w) as [[[]|e] w1]; cbn [result final trace];
    [|discriminate].
  intros H. rewrite (IH _ H). reflexivity.
Qed.

(** X17.  [clear-cache] with words stops at the first removal that raises an
    [Exception]: the error is logged and the result is 1; the words before
    it stay cleared, and the words after it are not cleared. *)
Theorem clear_cache_stops_at_first_error d pre word post w e w' :
  let r_pre := for_in pre (clear_word d) tt w in
  result r_pre = Ret tt ->
  dl_clear_cache d (Some word) (final r_pre) = (Raise e, w') ->
  is_Exception e = true ->
  let r := clear_cache d (pre ++ word :: post) w in
  r = Run (Ret 1%Z) w'
        (map (fun x => EvClearCache (Some x) (Ret tt)) pre ++
         [EvClearCache (Some word) (Raise e);
          EvLogError ("Error clearing cache: " +:+ exn_str e)]) /\
  cleared (trace r) =
    (map (fun x => (Some x, Ret tt)) pre ++ [(Some word, Raise e)])%list.
Proof.
  intros r_pre Hpre Hclear He r.
  assert (r = Run (Ret 1%Z) w'
        (map (fun x => EvClearCache (Some x) (Ret tt)) pre ++
         [EvClearCache (Some word) (Raise e);
          EvLogError ("Error clearing cache: " +:+ exn_str e)])) as Hr.
  { subst r. rewrite clear_cache_unfold.
    assert (for_in (pre ++ word :: post) (clear_word d) tt w =
            Run (Raise e) w' (trace r_pre ++ [EvClearCache (Some word) (Raise e)])) as Hloop.
    { rewrite for_in_app. cbv zeta. fold r_pre. rewrite Hpre.
      rewrite for_in_cons, clear_word_run, Hclear. reflexivity. }
    rewrite <- (clear_loop_success d pre w Hpre). fold r_pre.
    destruct pre; cbn [app] in *; rewrite Hloop; unfold clear_cache_result;
      cbn [result final trace]; rewrite He, <- ?app_assoc; reflexivity. }
  split; [exact Hr|]. rewrite Hr. cbn [trace]. unfold cleared.
  rewrite omap_app. f_equal.
  assert (forall l : list string,
            omap (fun ev => match ev with EvClearCache t r0 => Some (t, r0) | _ => None end)
              (map (fun x => EvClearCache (Some x) (Ret tt)) l) =
            map (fun x => (Some x, Ret tt)) l) as Hmap.
  { intros l. induction l as [|y l IHl]; [reflexivity|]. cbn. f_equal. exact IHl. }
  apply Hmap.
Qed.

(** X18.  When [clear_cache] returns 0, it has made one removal call per
    word, in the order of the list, or a single call for the whole cache
    when no word is given; every call returned and nothing else happened. *)
Theorem clear_cache_success_clears_each d ws w :
  result (clear_cache d ws w) = Ret 0%Z ->
  trace (clear_cache d ws w) = map (fun t => EvClearCache t (Ret tt)) (call_targets ws).
Proof.
  rewrite clear_cache_unfold. unfold clear_cache_result.
  destruct ws as [|x xs].
  - unfold downloader_clear_cache, call.
    destruct (dl_clear_cache d None w) as [[[]|e] w1]; cbn; [reflexivity|].
    destruct (is_Exception e); cbn; discriminate.
  - pose proof (clear_loop_success d (x :: xs) w) as Hloop.
    destruct (for_in (x :: xs) (clear_word d) tt w) as [[[]|e] w1 t1];
      cbn [result final trace] in *.
    + intros _. rewrite (Hloop eq_refl). unfold call_targets.
      rewrite <- list_fmap_compose. reflexivity.
    + destruct (is_Exception e); cbn; discriminate.
Qed.

(** What one handled word leaves in the trace of [show_cache_info]. *)
Lemma show_word_queries d word w :
  let r := show_word d tt word w in
  queried (trace r) = [Some word] /\ error_records (trace r) = [].
Proof.
  cbv zeta. unfold show_word, bind, get_cache_info, call, print, emit, subscript.
  destruct (dl_get_cache_info d (Some word) w) as [[[|kv info]|e] w1];
    cbn [result final trace]; auto.
  destruct (dict_get (kv :: info) word); cbn; auto.
Qed.

Lemma show_loop_queries d ws : forall w,
  let r := for_in ws (show_word d) tt w in
  result r = Ret tt ->
  queried (trace r) = map Some ws /\ error_records (trace r) = [].
Proof.
  induction ws as [|x xs IH]; intros w; [cbn; auto|].
  cbv zeta. rewrite for_in_cons. cbv zeta.
  destruct (show_word_queries d x w) as [Hq He].
  destruct (show_word d tt x w) as [[[]|e] w1 t1]; cbn [result final trace] in *;
    [|discriminate].
  intros H. destruct (IH w1 H) as [IHq IHe].
  unfold queried, error_records in *. rewrite !omap_app, Hq, He, IHq, IHe. auto.
Qed.

(** X19.  When [show_cache_info] returns 0, it has queried the cache once
    per word, in the order of the list, or once for all entries when no word
    is given, and it has logged no error. *)
Theorem cache_info_success_queries_each d ws w :
  let r := show_cache_info d ws w in
  result r = Ret 0%Z ->
  queried (trace r) = call_targets ws /\ error_records (trace r) = [].
Proof.
  cbv zeta. rewrite show_cache_info_unfold. unfold cache_info_result.
  destruct ws as [|x xs].
  - rewrite show_all_run.
    destruct (dl_get_cache_info d None w) as [[[|kv info]|e] w1]; cbn; auto.
    destruct (is_Exception e); cbn; discriminate.
  - pose proof (show_loop_queries d (x :: xs) w) as Hloop. cbv zeta in Hloop.
    destruct (for_in (x :: xs) (show_word d) tt w) as [[[]|e] w1 t1];
      cbn [result final trace] in *.
    + intros _. apply Hloop. reflexivity.
    + destruct (is_Exception e); cbn; discriminate.
Qed.

End ClearMore.

Lemma cache_info_found_word_witness :
  result (show_cache_info (api := mock_api) default_config ([] ++ "hello" :: ["cat"])
            demo_world_1) = Ret 0%Z.
Proof.
  rewrite (cache_info_found_word (api := mock_api) default_config [] "hello" ["cat"]
             demo_world_1 ("hello", JStr "pronunciations/hello_us.mp3") [] demo_world_1
             eq_refl eq_refl).
  reflexivity.
Defined.

Lemma cache_info_stops_at_first_error_witness :
  queried (trace (show_cache_info (api := mock_api) default_config
                    (["cat"] ++ "hello" :: ["cat"]) damaged_world_1))
  = [Some "cat"; Some "hello"].
Proof.
  destruct (cache_info_stops_at_first_error (api := mock_api) default_config ["cat"] "hello"
              ["cat"] damaged_world_1 (CacheError "Corrupt cache metadata") damaged_world_1
              eq_refl eq_refl eq_refl) as [_ H].
  exact H.
Defined.

Lemma clear_cache_stops_at_first_error_witness :
  cleared (trace (clear_cache (api := mock_api) default_config
                    (["cat"] ++ "hello" :: ["dog"]) damaged_world_1))
  = [(Some "cat", Ret tt); (Some "hello", Raise (CacheError "Corrupt cache metadata"))].
Proof.
  destruct (clear_cache_stops_at_first_error (api := mock_api) default_config ["cat"] "hello"
              ["dog"] damaged_world_1 (CacheError "Corrupt cache metadata")
              (final (for_in ["cat"] (clear_word (api := mock_api) default_config) tt
                        damaged_world_1))
              eq_refl eq_refl eq_refl) as [_ H].
  exact H.
Defined.

Lemma clear_cache_success_clears_each_witness :
  trace (clear_cache (api := mock_api) default_config ["cat"; "hello"] demo_world_1)
  = [EvClearCache (Some "cat") (Ret tt); EvClearCache (Some "hello") (Ret tt)].
Proof.
  exact (clear_cache_success_clears_each (api := mock_api) default_config ["cat"; "hello"]
           demo_world_1 eq_refl).
Defined.

Lemma cache_info_success_queries_each_witness :
  queried (trace (show_cache_info (api := mock_api) default_config [] demo_world_1))
  = [None].
Proof.
  destruct (cache_info_success_queries_each (api := mock_api) default_config []
              demo_world_1 eq_refl) as [H _].
  exact H.
Defined.

(** ** Exit status and error records *)

Section StatusAndLog.
Context {World : Type} {api : DownloaderAPI World} {lib : PyLib}.

Lemma fetch_paths_no_records d a word w :
  error_records (trace (fetch_paths d a word w)) = [].
Proof.
  unfold fetch_paths, bind, AccentType_call, download_all_accents,
    download_pronunciation, call.
  destruct (String.eqb a "all").
  - destruct (dl_download_all_accents d word w) as [r w']. reflexivity.
  - destruct (AccentType_of a) as [acc|e]; cbn [result final trace]; [|reflexivity].
    destruct (dl_download_pronunciation d word acc w) as [[p|e] w']; reflexivity.
Qed.

Lemma process_loop_flag d a ws : forall s w b,
  result (for_in ws (process_word d a) s w) = Ret b ->
  (b = true <-> s = true /\ error_records (trace (for_in ws (process_word d a) s w)) = []).
Proof.
  induction ws as [|x xs IH]; intros s w b.
  - cbn. intros [= <-]. intuition.
  - rewrite for_in_cons, process_word_run. cbv zeta.
    pose proof (fetch_paths_no_records d a x w) as Hf.
    destruct (fetch_paths d a x w) as [rf wf tf]; cbn [result final trace] in *.
    destruct (word_failed rf) eqn:Hfail; cbn [result final trace].
    + intros H. rewrite (IH _ _ _ H). rewrite !error_records_app, Hf. cbn.
      split; [intros [[=] _]|intros [_ [=]]].
    + destruct rf as [paths|e]; [|discriminate]. cbn [result final trace].
      intros H. rewrite (IH _ _ _ H). rewrite error_records_app, Hf. reflexivity.
Qed.

Lemma process_words_quiet ws config a : quiet_iff_zero (process_words ws config a).
Proof.
  intros w c. rewrite process_words_unfold.
  destruct (dl_init config w) as [[d|e] w0]; cbn [result final trace]; [|discriminate].
  pose proof (process_loop_flag d a ws true w0) as Hflag.
  destruct (for_in ws (process_word d a) true w0) as [[b|e] w1 t1];
    cbn [result final trace] in *; [|discriminate].
  intros [= <-]. specialize (Hflag b eq_refl). change (error_records (EvInit config (Ret tt) :: t1))
    with (error_records t1).
  destruct b; split; try discriminate; intuition discriminate.
Qed.

Lemma result_records_quiet (r : run World unit) (msg : exn -> string) :
  error_records (trace r) = [] \/ (exists e, result r = Raise e) ->
  (result r = Ret tt -> error_records (trace r) = []) ->
  forall c,
  result (match result r with
          | Ret _ => Run (Ret 0%Z) (final r) (trace r)
          | Raise e =>
              if is_Exception e then
                Run (Ret 1%Z) (final r) (trace r ++ [EvLogError (msg e)])
              else Run (Raise e) (final r) (trace r)
          end) = Ret c ->
  (c = 0%Z <->
   error_records (trace (match result r with
                         | Ret _ => Run (Ret 0%Z) (final r) (trace r)
                         | Raise e =>
                             if is_Exception e then
                               Run (Ret 1%Z) (final r) (trace r ++ [EvLogError (msg e)])
                             else Run (Raise e) (final r) (trace r)
                         end)) = []).
Proof.
  intros _ Hok c. destruct (result r) as [[]|e]; cbn.
  - intros [= <-]. split; auto.
  - destruct (is_Exception e); cbn; [|discriminate].
    intros [= <-]. rewrite error_records_app. cbn.
    split; [discriminate|]. intros H. apply app_eq_nil in H as [_ H]. discriminate.
Qed.

Lemma show_cache_info_quiet d ws : quiet_iff_zero (show_cache_info d ws).
Proof.
  intros w c. rewrite show_cache_info_unfold. unfold cache_info_result.
  apply result_records_quiet.
  - destruct ws as [|x xs].
    + rewrite show_all_run.
      destruct (dl_get_cache_info d None w) as [[[|kv info]|e] w1]; cbn; eauto.
    + destruct (result (for_in (x :: xs) (show_word d) tt w)) as [[]|e] eqn:Hr; [|eauto].
      left. apply (show_loop_queries d (x :: xs) w Hr).
  - destruct ws as [|x xs].
    + rewrite show_all_run.
      destruct (dl_get_cache_info d None w) as [[[|kv info]|e] w1]; cbn; auto.
    + intros Hr. apply (show_loop_queries d (x :: xs) w Hr).
Qed.

Lemma clear_cache_quiet d ws : quiet_iff_zero (clear_cache d ws).
Proof.
  intros w c. rewrite clear_cache_unfold. unfold clear_cache_result.
  assert (forall r : run World unit,
            (result r = Ret tt -> error_records (trace r) = []) ->
            error_records (trace r) = [] \/ (exists e, result r = Raise e)) as Hor.
  { intros r H. destruct (result r) as [[]|e]; eauto. }
  assert (result (match ws with
                  | [] => downloader_clear_cache d None w
                  | _ :: _ => for_in ws (clear_word d) tt w
                  end) = Ret tt ->
          error_records (trace (match ws with
                                | [] => downloader_clear_cache d None w
                                | _ :: _ => for_in ws (clear_word d) tt w
                                end)) = []) as Hok.
  { destruct ws as [|x xs].
    - unfold downloader_clear_cache, call.
      destruct (dl_clear_cache d None w) as [r w1]. reflexivity.
    - intros Hr. rewrite (clear_loop_success d (x :: xs) w Hr).
      generalize (x :: xs). intros l. induction l; [reflexivity|exact IHl]. }
  apply result_records_quiet; [apply Hor, Hok|exact Hok].
Qed.

Lemma dispatch_quiet args config d : quiet_iff_zero (dispatch args config d).
Proof.
  intros w c. unfold dispatch.
  case_bool_decide.
  { unfold getattr. destruct (words args) as [ws|]; [|discriminate].
    destruct (accent args) as [a|]; [|discriminate].
    unfold bind, ret. cbn [result final trace].
    pose proof (process_words_quiet ws config a w c) as Hquiet.
    destruct (process_words ws config a w) as [r1 w1 t1]; exact Hquiet. }
  case_bool_decide.
  { unfold getattr. destruct (words args) as [ws|]; [|discriminate].
    unfold bind, ret. cbn [result final trace].
    pose proof (show_cache_info_quiet d ws w c) as Hquiet.
    destruct (show_cache_info d ws w) as [r1 w1 t1]; exact Hquiet. }
  case_bool_decide.
  { unfold getattr. destruct (words args) as [ws|]; [|discriminate].
    unfold bind, ret. cbn [result final trace].
    pose proof (clear_cache_quiet d ws w c) as Hquiet.
    destruct (clear_cache d ws w) as [r1 w1 t1]; exact Hquiet. }
  cbn. intros [= <-]. split; discriminate.
Qed.

(** X20.  Once the constructor of line 164 has returned, and as long as the
    downloader raises nothing but [Exception]s, the exit status is 0 exactly
    when none of the [logging.error] calls of [cli.py] was executed.  What
    the downloader may log on its own is not in the trace and is not
    counted. *)
Theorem status_zero_iff_no_error_call argv ns w d w1 :
  parse_args argv = Ret ns ->
  dl_init (make_config ns) w = (Ret d, w1) ->
  let '(status, _, tr) := script argv w in
  only_errors tr = true ->
  (status = Exited 0 <-> error_records tr = []).
Proof.
  intros Hp Hinit. unfold script. rewrite main_unfold, Hp. cbv zeta. rewrite Hinit.
  cbn [result final trace]. intros Honly.
  change (error_records (?a :: ?b :: ?t)) with (error_records t).
  pose proof (dispatch_quiet ns (make_config ns) d w1) as Hq.
  pose proof (dispatch_accounted ns (make_config ns) d w1) as Hacc.
  unfold try_except in *.
  destruct (dispatch ns (make_config ns) d w1) as [[c|e] w2 t2] eqn:Hd;
    cbn [result final trace] in *.
  - specialize (Hq c eq_refl). rewrite <- Hq. split; [intros [= ->]|intros ->]; reflexivity.
  - unfold main_handler in *. destruct (is_Exception e) eqn:He.
    + cbn. rewrite error_records_app. cbn.
      split; [discriminate|]. intros H. apply app_eq_nil in H as [_ H]. discriminate.
    + exfalso. destruct (Hacc e eq_refl) as [He'|(ev & Hin & Hev)]; [congruence|].
      assert (is_Exception e = true); [|congruence].
      eapply only_errors_elem; [exact Honly| |exact Hev]. right. right. exact Hin.
Qed.

End StatusAndLog.

Lemma status_zero_iff_no_error_call_witness :
  (script argv_hello demo_world).1.1 = Exited 0.
Proof.
  pose proof (status_zero_iff_no_error_call (api := mock_api) (lib := mock_lib) argv_hello
                (download_ns ["hello"] "all" false) demo_world default_config demo_world_1
                eq_refl eq_refl) as H.
  destruct (script argv_hello demo_world) as [[status w'] tr] eqn:E.
  injection E as _ _ <-. apply H; reflexivity.
Defined.

(** ** Methods and constructions *)

Section Methods.
Context {World : Type} {api : DownloaderAPI World} {lib : PyLib}.

Lemma process_words_method ws config a :
  emits (fun ev => forall m, download_method ev = Some m -> m = bool_decide (a = "all"))
    (process_words ws config a).
Proof.
  unfold process_words, GooglePronunciationDownloader, process_word, word_handler,
    logging_error.
  apply emits_bind; [apply emits_call; intros; discriminate|]. intros _ d _.
  apply emits_bind; [|intros; repeat emits_step].
  apply emits_for_in. intros s x _.
  apply emits_try_except.
  - apply emits_bind.
    + unfold fetch_paths, download_all_accents, download_pronunciation, AccentType_call.
      destruct (String.eqb a "all") eqn:E.
      * apply String.eqb_eq in E as ->.
        apply emits_call. intros r m [= <-]. reflexivity.
      * apply String.eqb_neq in E.
        assert (bool_decide (a = "all") = false) as Hb by (apply bool_decide_eq_false_2, E).
        apply emits_bind.
        -- intros w'. repeat constructor. intros m [= <-]. auto.
        -- intros _ acc _. apply emits_bind; [|intros; apply emits_ret].
           apply emits_call. intros r m [= <-]. auto.
    + intros; repeat emits_step; intros; discriminate.
  - intros e h Hh. handler_cases Hh; repeat emits_step; intros; discriminate.
Qed.

(** X21.  The accent selects the method: with ["all"] every word goes to
    [download_all_accents] and no accent is converted; with any other accent
    every word goes through [AccentType] and [download_pronunciation], and
    [download_all_accents] is never called. *)
Theorem accent_selects_the_method ws config a w ev m :
  ev ∈ trace (process_words ws config a w) ->
  download_method ev = Some m ->
  m = bool_decide (a = "all").
Proof.
  intros Hin Hm.
  pose proof (process_words_method ws config a w) as H.
  rewrite Forall_forall in H. exact (H _ Hin _ Hm).
Qed.

Lemma no_construction tr :
  Forall (fun ev => forall c r, ev <> EvInit c r) tr -> constructions tr = [].
Proof.
  induction 1 as [|ev tr Hev _ IH]; [reflexivity|].
  unfold constructions in *. cbn. destruct ev; try exact IH.
  destruct (Hev config r eq_refl).
Qed.

Lemma process_loop_no_construction d a ws s w :
  constructions (trace (for_in ws (process_word d a) s w)) = [].
Proof.
  apply no_construction. revert w. fold (emits (fun ev => forall c r, ev <> EvInit c r)
    (for_in ws (process_word d a) s)).
  unfold process_word, word_handler, fetch_paths, download_all_accents,
    download_pronunciation, logging_error.
  repeat emits_step; try discriminate.
  intros w'. unfold AccentType_call. repeat constructor. discriminate.
Qed.

(** X22.  [main] constructs a downloader once, before it looks at the
    sub-command; the download command constructs a second one inside
    [process_words], and no other command constructs any. *)
Theorem constructions_per_command argv ns w :
  parse_args argv = Ret ns ->
  length (constructions (trace (main argv w))) =
  match dl_init (make_config ns) w with
  | (Ret _, _) => if bool_decide (command ns = Some "download") then 2%nat else 1%nat
  | (Raise _, _) => 1%nat
  end.
Proof.
  intros Hp. rewrite main_unfold, Hp. cbv zeta.
  destruct (dl_init (make_config ns) w) as [[d|e] w1]; cbn [trace]; [|reflexivity].
  change (constructions (?a :: EvInit ?c ?r :: ?t)) with ((c, r) :: constructions t).
  cbn [length].
  enough (length (constructions
                    (trace (try_except (dispatch ns (make_config ns) d) main_handler w1))) =
          if bool_decide (command ns = Some "download") then 1%nat else 0%nat) as ->
    by (case_bool_decide; reflexivity).
  assert (forall (m : M World Z) n,
            length (constructions (trace (m w1))) = n ->
            (forall e (h : M World Z), main_handler e = Some h ->
               forall w' : World, constructions (trace (h w')) = []) ->
            length (constructions (trace (try_except m main_handler w1))) = n) as Htry.
  { intros m n Hn Hh. unfold try_except.
    destruct (result (m w1)) as [c|e]; [exact Hn|].
    destruct (main_handler e) as [h|] eqn:He; [|exact Hn].
    cbn [trace]. unfold constructions in *. rewrite omap_app, length_app, Hn.
    fold (constructions (trace (h (final (m w1))))). rewrite (Hh _ _ He). cbn. lia. }
  apply Htry.
  - pose proof (parse_args_fields _ _ Hp) as (_ & _ & _ & _ & Hcmd).
    case_bool_decide as Hc.
    + destruct (Hcmd _ Hc) as ((ws & Hw) & Ha). destruct (Ha eq_refl) as (a & Ha' & _).
      rewrite (dispatch_download _ _ _ _ _ _ Hc Hw Ha'), process_words_unfold.
      destruct (dl_init (make_config ns) w1) as [[d2|e2] w2]; cbn [trace].
      * change (constructions (EvInit ?c ?r :: ?t)) with ((c, r) :: constructions t).
        rewrite process_loop_no_construction. reflexivity.
      * reflexivity.
    + assert (constructions (trace (dispatch ns (make_config ns) d w1)) = []) as ->;
        [|reflexivity].
      apply no_construction. unfold dispatch.
      rewrite (bool_decide_eq_false_2 _ Hc).
      case_bool_decide.
      { unfold getattr. destruct (words ns) as [ws|].
        - unfold bind, ret. cbn [result final trace].
          pose proof (show_cache_info_emits (fun ev => forall c r, ev <> EvInit c r) d ws
                        (fun ev Hpl => proj1 Hpl) w1) as Hem.
          destruct (show_cache_info d ws w1); exact Hem.
        - constructor. }
      case_bool_decide.
      { unfold getattr. destruct (words ns) as [ws|].
        - unfold bind, ret. cbn [result final trace].
          pose proof (clear_cache_emits (fun ev => forall c r, ev <> EvInit c r) d ws
                        (fun ev Hpl => proj1 Hpl) w1) as Hem.
          destruct (clear_cache d ws w1); exact Hem.
        - constructor. }
      repeat constructor. discriminate.
  - intros e h Hh w'. unfold main_handler in Hh. handler_cases Hh. reflexivity.
Qed.

End Methods.

Lemma accent_selects_the_method_witness :
  false = bool_decide ("us" = "all").
Proof.
  apply (accent_selects_the_method (api := mock_api) ["hello"] default_config "us"
           demo_world (EvDownloadOne "hello" US (Ret (Some (PyPath "pronunciations/hello_us.mp3"))))
           false).
  - apply list_elem_of_In. vm_compute. tauto.
  - reflexivity.
Defined.

Lemma constructions_per_command_witness :
  length (constructions (trace (main argv_hello demo_world))) = 2%nat.
Proof.
  exact (constructions_per_command (api := mock_api) (lib := mock_lib) argv_hello
           (download_ns ["hello"] "all" false) demo_world eq_refl).
Defined.
